(** * Sorting algorithms of [src/algorithm/sorting.ts]

    A shallow embedding of [sort], [stable_sort], [partial_sort],
    [partial_sort_copy], [nth_element], [is_sorted] and [is_sorted_until],
    and the proofs of their contracts.

    A container is a [list A]; an ordinary random access iterator of one
    container, as [begin()] and [end()] give them, is its index, a natural
    number: [it.index()] is the number itself, [it.advance(k)] is [it + k],
    [it.next()] is [S it] and [x.equals(y)] decides [x = y].  A range of
    such iterators has [first ≤ last].  Reverse iterators, as [rbegin()]
    and [rend()] give them, have an index that falls as they advance;
    [sort] tells the two apart, for it measures a range by the difference
    of its indices, and is embedded on both kinds as [sort_at].  Reading or
    writing the value of an iterator that is not over an element of its
    container fails.  Loops that run until an iterator equals another one,
    and the recursion of [sort], take fuel; an inner loop takes the fuel
    its outer loop has left. *)

From stdpp Require Import base list sorting.

Set Default Proof Using "Type".

(** ** Results of a call: a value, or the reason why there is none *)

Inductive error : Type :=
  | OutOfRange   (* an iterator was dereferenced outside its container *)
  | OutOfFuel.   (* the loop or the recursion did not finish in time *)

Inductive res (T : Type) : Type :=
  | Ok (t : T)
  | Err (e : error).
Arguments Ok {T} t.
Arguments Err {T} e.

Global Instance res_ret : MRet res := λ T t, Ok t.
Global Instance res_bind : MBind res := λ T U f m,
  match m with Ok t => f t | Err e => Err e end.

(** ** Iterators: the interface the algorithms are written against *)

Class IForwardIterator (I : Type) : Type := {
  equals : I → I → bool;
  next : I → I
}.

Global Instance index_iterator : IForwardIterator nat :=
  {| equals := λ x y, bool_decide (x = y); next := S |}.

(** An iterator of a heap of containers: its container and its index. *)
Record iterator : Type := Iterator { source : nat; index : nat }.

Global Instance iterator_eq_dec : EqDecision iterator.
Proof. solve_decision. Defined.

Global Instance heap_iterator : IForwardIterator iterator :=
  {| equals := λ x y, bool_decide (x = y);
     next := λ x, Iterator (source x) (S (index x)) |}.

(** Modelled from the spec: [distance] of the iterator module, the length
    of the range, that is the number of forward advances that lead from
    [first] to [last]. *)
Fixpoint distance {I} `{IForwardIterator I} (fuel : nat) (first last : I)
  : res nat :=
  match fuel with
  | 0 => Err OutOfFuel
  | S fuel =>
      if equals first last then Ok 0
      else n ← distance fuel (next first) last; Ok (S n)
  end.

(** A heap is a list of containers; the source of an iterator is the
    index of its container. *)
Abbreviation heap A := (list (list A)).

Section Sorting.
Context {A : Type}.

Definition Comparator : Type := A → A → bool.

(** *** One container *)

(** Modelled from the spec: the value slot of a position.  [it.value] as
    an expression; outside the container it is the out-of-range access of
    the spec. *)
Definition value (it : nat) (l : list A) : res A :=
  match l !! it with
  | Some v => Ok v
  | None => Err OutOfRange
  end.

(** [it.value = v]. *)
Definition set_value (it : nat) (v : A) (l : list A) : res (list A) :=
  if decide (it < length l) then Ok (<[it := v]> l) else Err OutOfRange.

(** Modelled from the spec: [iter_swap] of the modifiers module, which
    swaps the values at two positions:
    [[x.value, y.value] = [y.value, x.value]]. *)
Definition iter_swap (x y : nat) (l : list A) : res (list A) :=
  vy ← value y l;
  vx ← value x l;
  l ← set_value x vy l;
  set_value y vx l.

(** The body of the scan of [sort]: the state is the boundary [i] and the
    container. *)
Definition sort_scan_body (comp : Comparator) (pivot : A) (first : nat)
    (st : nat * list A) (j : nat) : res (nat * list A) :=
  let '(i, l) := st in
  let j_it := first + j in
  vj ← value j_it l;
  if comp vj pivot then
    l ← iter_swap j_it (first + i) l;
    Ok (S i, l)
  else Ok (i, l).

(** [for (let j = 1; j < size; ++j)]: the body at [j = 1, ..., size - 1]. *)
Fixpoint for_each {S : Type} (body : S → nat → res S) (js : list nat)
    (st : S) : res S :=
  match js with
  | [] => Ok st
  | j :: js => st ← body st j; for_each body js st
  end.

Definition sort_scan (comp : Comparator) (pivot : A) (first size : nat)
    (l : list A) : res (nat * list A) :=
  for_each (sort_scan_body comp pivot first) (seq 1 (size - 1)) (1, l).

(** [sort(first, last, comp)].  The difference of the two indices is at
    most zero exactly when [last ≤ first], where [last - first] is [0]. *)
Fixpoint sort (fuel : nat) (comp : Comparator) (first last : nat)
    (l : list A) : res (list A) :=
  match fuel with
  | 0 => Err OutOfFuel
  | S fuel =>
      let size := last - first in
      if bool_decide (size ≤ 0) then Ok l
      else
        let pivot_it := first + size `div` 2 in
        pivot ← value pivot_it l;
        l ← (if bool_decide (pivot_it ≠ first)
             then iter_swap first pivot_it l else Ok l);
        '(i, l) ← sort_scan comp pivot first size l;
        l ← iter_swap first (first + (i - 1)) l;
        l ← sort fuel comp first (first + (i - 1)) l;
        sort fuel comp (first + i) last l
  end.

(** The comparator [stable_sort] hands to [sort]. *)
Definition ramda (comp : Comparator) : Comparator :=
  λ x y, comp x y && negb (comp y x).

Definition stable_sort (fuel : nat) (comp : Comparator) (first last : nat)
    (l : list A) : res (list A) :=
  sort fuel (ramda comp) first last l.

(** The inner loop of [partial_sort]: [j] runs to [last], [min] is the
    position of the least value seen. *)
Fixpoint partial_sort_min (fuel : nat) (comp : Comparator) (last : nat)
    (j min : nat) (l : list A) : res nat :=
  match fuel with
  | 0 => Err OutOfFuel
  | S fuel =>
      if equals j last then Ok min
      else
        vj ← value j l;
        vmin ← value min l;
        partial_sort_min fuel comp last (next j)
          (if comp vj vmin then j else min) l
  end.

Fixpoint partial_sort_loop (fuel : nat) (comp : Comparator)
    (middle last : nat) (i : nat) (l : list A) : res (list A) :=
  match fuel with
  | 0 => Err OutOfFuel
  | S fuel' =>
      if equals i middle then Ok l
      else
        min ← partial_sort_min fuel comp last (next i) i l;
        l ← (if negb (equals i min) then iter_swap i min l else Ok l);
        partial_sort_loop fuel' comp middle last (next i) l
  end.

Definition partial_sort (fuel : nat) (comp : Comparator)
    (first middle last : nat) (l : list A) : res (list A) :=
  partial_sort_loop fuel comp middle last first l.

(** The inner loop of [nth_element]: the number of positions [j] other
    than [i] with [comp(i.value, j.value)], given up once it exceeds
    [n]. *)
Fixpoint nth_element_count (fuel : nat) (comp : Comparator) (n last : nat)
    (i j count : nat) (l : list A) : res nat :=
  match fuel with
  | 0 => Err OutOfFuel
  | S fuel =>
      if equals j last then Ok count
      else if equals i j then
        nth_element_count fuel comp n last i (next j) count l
      else
        vi ← value i l;
        vj ← value j l;
        if comp vi vj then
          if bool_decide (n < S count) then Ok (S count)
          else nth_element_count fuel comp n last i (next j) (S count) l
        else nth_element_count fuel comp n last i (next j) count l
  end.

Fixpoint nth_element_loop (fuel : nat) (comp : Comparator)
    (first nth last : nat) (n : nat) (i : nat) (l : list A)
  : res (list A) :=
  match fuel with
  | 0 => Err OutOfFuel
  | S fuel' =>
      if equals i last then Ok l
      else
        count ← nth_element_count fuel comp n last i first 0 l;
        if bool_decide (count = n) then iter_swap nth i l
        else nth_element_loop fuel' comp first nth last n (next i) l
  end.

Definition nth_element (fuel : nat) (comp : Comparator)
    (first nth last : nat) (l : list A) : res (list A) :=
  n ← distance fuel first nth;
  nth_element_loop fuel comp first nth last n first l.

(** The loop of [is_sorted_until]: [first] follows [next] one step
    behind. *)
Fixpoint is_sorted_until_loop (fuel : nat) (comp : Comparator)
    (last : nat) (first next_it : nat) (l : list A) : res nat :=
  match fuel with
  | 0 => Err OutOfFuel
  | S fuel =>
      if equals next_it last then Ok last
      else
        vn ← value next_it l;
        vf ← value first l;
        if comp vn vf then Ok next_it
        else is_sorted_until_loop fuel comp last (next first)
               (next next_it) l
  end.

Definition is_sorted_until (fuel : nat) (comp : Comparator)
    (first last : nat) (l : list A) : res nat :=
  if equals first last then Ok last
  else is_sorted_until_loop fuel comp last first (next first) l.

Definition is_sorted (fuel : nat) (comp : Comparator) (first last : nat)
    (l : list A) : res bool :=
  r ← is_sorted_until fuel comp first last l;
  Ok (equals r last).

(** *** A heap of containers, [heap A] *)

Definition get (it : iterator) (h : heap A) : res A :=
  match h !! source it with
  | Some c => value (index it) c
  | None => Err OutOfRange
  end.

Definition put (it : iterator) (v : A) (h : heap A) : res (heap A) :=
  match h !! source it with
  | Some c => c ← set_value (index it) v c; Ok (<[source it := c]> h)
  | None => Err OutOfRange
  end.

(** Modelled from the spec: the constructor [new Vector(first, last)] of
    the scratch buffer, an owned sequence made of the values of the
    range. *)
Fixpoint Vector (fuel : nat) (first last : iterator) (h : heap A)
  : res (list A) :=
  match fuel with
  | 0 => Err OutOfFuel
  | S fuel =>
      if equals first last then Ok []
      else
        v ← get first h;
        vs ← Vector fuel (next first) last h;
        Ok (v :: vs)
  end.

(** Modelled from the spec: [copy] of the modifiers module, which copies
    the values of a range, here of the scratch buffer, to the positions
    from [output] on and returns the position after the last one
    written. *)
Fixpoint copy (fuel : nat) (first last : nat) (vector : list A)
    (output : iterator) (h : heap A) : res (heap A * iterator) :=
  match fuel with
  | 0 => Err OutOfFuel
  | S fuel =>
      if equals first last then Ok (h, output)
      else
        v ← value first vector;
        h ← put output v h;
        copy fuel (next first) last vector (next output) h
  end.

Definition partial_sort_copy (fuel : nat) (comp : Comparator)
    (first last output_first output_last : iterator) (h : heap A)
  : res (heap A * iterator) :=
  input_size ← distance fuel first last;
  result_size ← distance fuel output_first output_last;
  vector ← Vector fuel first last h;
  vector ← sort fuel comp 0 (length vector) vector;
  if bool_decide (result_size < input_size) then
    copy fuel 0 (0 + result_size) vector output_first h
  else
    copy fuel 0 (length vector) vector output_first h.

End Sorting.

(** ** Random access iterators, ordinary and reverse

    [sort] reads its iterators through [index()], [advance(n)] and their
    value only.  Above, a position is an ordinary iterator, given by its
    index.  Here both kinds a container hands out are told apart, so that
    [sort] can be followed on a reverse range, from [rbegin()] to
    [rend()], too. *)

(** Modelled from the spec: a random-access position, which exposes an
    index within its sequence and advances by an offset.  An ordinary
    iterator advances towards the back and its index rises; a reverse
    iterator advances towards the front and its index falls.  The index
    is that of the element the iterator is over (with the index of the
    base of a reverse iterator, one more, it falls just the same). *)
Inductive position : Type :=
  | Ordinary (i : Z)
  | Reversed (i : Z).

Definition position_index (it : position) : Z :=
  match it with Ordinary i | Reversed i => i end.

Definition position_advance (it : position) (n : Z) : position :=
  match it with
  | Ordinary i => Ordinary (i + n)
  | Reversed i => Reversed (i - n)
  end.

Global Instance position_eq_dec : EqDecision position.
Proof. solve_decision. Defined.

Global Instance position_iterator : IForwardIterator position :=
  {| equals := λ x y, bool_decide (x = y);
     next := λ x, position_advance x 1 |}.

(** [v.begin()], [v.end()], [v.rbegin()] and [v.rend()]. *)
Definition begin_of {A} (l : list A) : position := Ordinary 0.
Definition end_of {A} (l : list A) : position :=
  Ordinary (Z.of_nat (length l)).

Section SortAt.
Context {A : Type}.

(** [it.value] as an expression. *)
Definition position_value (it : position) (l : list A) : res A :=
  if bool_decide (0 ≤ position_index it)%Z
  then value (Z.to_nat (position_index it)) l
  else Err OutOfRange.

(** [iter_swap(x, y)]. *)
Definition position_swap (x y : position) (l : list A) : res (list A) :=
  if bool_decide (0 ≤ position_index x)%Z
     && bool_decide (0 ≤ position_index y)%Z
  then iter_swap (Z.to_nat (position_index x)) (Z.to_nat (position_index y)) l
  else Err OutOfRange.


Definition sort_at_scan_body (comp : Comparator) (pivot : A)
    (first : position) (st : nat * list A) (j : nat) : res (nat * list A) :=
  let '(i, l) := st in
  let j_it := position_advance first (Z.of_nat j) in
  vj ← position_value j_it l;
  if comp vj pivot then
    l ← position_swap j_it (position_advance first (Z.of_nat i)) l;
    Ok (S i, l)
  else Ok (i, l).

(** [sort(first, last, comp)] on random access iterators of either
    kind. *)
Fixpoint sort_at (fuel : nat) (comp : Comparator) (first last : position)
    (l : list A) : res (list A) :=
  match fuel with
  | 0 => Err OutOfFuel
  | S fuel =>
      let size := (position_index last - position_index first)%Z in
      if bool_decide (size ≤ 0)%Z then Ok l
      else
        let pivot_it := position_advance first (size `div` 2)%Z in
        pivot ← position_value pivot_it l;
        l ← (if bool_decide (position_index pivot_it ≠ position_index first)
             then position_swap first pivot_it l else Ok l);
        '(i, l) ← for_each (sort_at_scan_body comp pivot first)
                     (seq 1 (Z.to_nat size - 1)) (1, l);
        l ← position_swap first (position_advance first (Z.of_nat i - 1)) l;
        l ← sort_at fuel comp first
              (position_advance first (Z.of_nat i - 1)) l;
        sort_at fuel comp (position_advance first (Z.of_nat i)) last l
  end.

End SortAt.

(** * The vocabulary of the contracts *)

Section Orders.
Context {A : Type}.
Implicit Types (comp : @Comparator A).

(** [x] may stand before [y]: [comp(y, x)] is false. *)
Definition not_after comp : relation A := λ x y, comp y x = false.

Definition asymmetric comp : Prop :=
  ∀ x y, comp x y = true → comp y x = false.

Definition transitive comp : Prop :=
  ∀ x y z, comp x y = true → comp y z = true → comp x z = true.

(** A strict weak ordering: irreflexive, transitive, and being tied
    (neither before the other) is transitive. *)
Record StrictWeakOrder comp : Prop := {
  swo_irrefl : ∀ x, comp x x = false;
  swo_trans : ∀ x y z, comp x y = true → comp y z = true → comp x z = true;
  swo_tied : ∀ x y z,
    comp x y = false → comp y x = false →
    comp y z = false → comp z y = false →
    comp x z = false ∧ comp z x = false
}.

(** The values of the range [[first, last)] of a container. *)
Definition range (first last : nat) (l : list A) : list A :=
  take (last - first) (drop first l).

(** [comp(i.value, j.value)] for two positions of a container. *)
Definition precedes_at comp (l : list A) (i j : nat) : bool :=
  match l !! i, l !! j with
  | Some a, Some b => comp a b
  | _, _ => false
  end.

(** The number of positions of [[first, last)] other than [i] whose
    value the value of [i] is before. *)
Definition followers comp (l : list A) (first last i : nat) : nat :=
  length (filter (λ j, j ≠ i ∧ precedes_at comp l i j = true)
            (seq first (last - first))).

(** The positions of the range [[first, last)] of a heap. *)
Definition in_range (first last it : iterator) : Prop :=
  source it = source first ∧ index first ≤ index it < index last.

(** The [n] positions from [output_first] on. *)
Definition written (output_first : iterator) (n : nat) (it : iterator)
  : Prop :=
  source it = source output_first ∧
  index output_first ≤ index it < index output_first + n.

(** A call finishes when it does not run out of fuel: it returns, or it
    fails on an iterator outside its container. *)
Definition finishes {T : Type} (m : res T) : Prop := m ≠ Err OutOfFuel.

(** The invariant of the scan of [sort] before step [j]: the pivot is
    in the first slot, the slots [1, i) hold values before the pivot and
    the slots [i, j) values not before it. *)
Definition scan_inv comp (pivot : A) (mid0 : list A) (j i : nat)
    (m : list A) : Prop :=
  m ≡ₚ mid0 ∧ m !! 0 = Some pivot ∧ 1 ≤ i ≤ j ∧
  (∀ k x, 1 ≤ k < i → m !! k = Some x → comp x pivot = true) ∧
  (∀ k x, i ≤ k < j → m !! k = Some x → comp x pivot = false).
End Orders.

(** Modelled from the spec: [less] of the comparators module, the default
    comparator, the natural "less than", here over numbers. *)
Definition less : @Comparator nat := Nat.ltb.

(** A comparator that looks at the first component of a pair only, so that
    pairs with the same first component are tied. *)
Definition key_less : @Comparator (nat * nat) := λ x y, less x.1 y.1.

(** * Facts about the model *)

Section Facts.
Context {A : Type}.
Implicit Types (l pre mid post : list A) (comp : @Comparator A).

Lemma bind_Ok {T U} (m : res T) (f : T → res U) (u : U) :
  m ≫= f = Ok u ↔ ∃ t, m = Ok t ∧ f t = Ok u.
Proof.
  destruct m as [t|e]; simpl; split.
  - eauto.
  - by intros (? & [= <-] & ?).
  - done.
  - by intros (? & ? & ?).
Qed.

Lemma value_Ok it l v : value it l = Ok v ↔ l !! it = Some v.
Proof. unfold value. destruct (l !! it); naive_solver. Qed.

Lemma value_is_Ok it l : it < length l → ∃ v, l !! it = Some v ∧ value it l = Ok v.
Proof.
  intros [v Hv]%lookup_lt_is_Some_2. exists v. by rewrite value_Ok.
Qed.

Lemma set_value_Ok it v l : it < length l → set_value it v l = Ok (<[it := v]> l).
Proof. intros. unfold set_value. by rewrite decide_True. Qed.

Lemma iter_swap_lookup x y l vx vy :
  l !! x = Some vx → l !! y = Some vy →
  iter_swap x y l = Ok (<[y := vx]> (<[x := vy]> l)).
Proof.
  intros Hx Hy. unfold iter_swap.
  apply value_Ok in Hx as Hx', Hy as Hy'. rewrite Hx', Hy'. simpl.
  apply lookup_lt_Some in Hx, Hy.
  rewrite set_value_Ok by done. simpl.
  by rewrite set_value_Ok by (by rewrite length_insert).
Qed.

Lemma iter_swap_Ok x y l l' :
  iter_swap x y l = Ok l' →
  ∃ vx vy, l !! x = Some vx ∧ l !! y = Some vy ∧
           l' = <[y := vx]> (<[x := vy]> l).
Proof.
  intros H. pose proof H as H0. unfold iter_swap in H0.
  apply bind_Ok in H0 as (vy & Hy%value_Ok & H0).
  apply bind_Ok in H0 as (vx & Hx%value_Ok & _).
  rewrite (iter_swap_lookup x y l vx vy Hx Hy) in H.
  exists vx, vy. naive_solver.
Qed.

Lemma iter_swap_same x l : x < length l → iter_swap x x l = Ok l.
Proof.
  intros [v Hv]%lookup_lt_is_Some_2.
  rewrite (iter_swap_lookup x x l v v Hv Hv).
  by rewrite !list_insert_id by (by rewrite ?list_insert_id).
Qed.

(** *** A range in the middle of a container *)

Lemma lookup_mid pre mid post k :
  k < length mid → (pre ++ mid ++ post) !! (length pre + k) = mid !! k.
Proof.
  intros. rewrite lookup_app_r by lia.
  replace (length pre + k - length pre) with k by lia.
  by rewrite lookup_app_l.
Qed.

Lemma insert_mid pre mid post k v :
  k < length mid →
  <[length pre + k := v]> (pre ++ mid ++ post) = pre ++ <[k := v]> mid ++ post.
Proof.
  intros. rewrite insert_app_r_alt by lia.
  replace (length pre + k - length pre) with k by lia.
  by rewrite insert_app_l.
Qed.

Lemma value_mid pre mid post k :
  k < length mid → value (length pre + k) (pre ++ mid ++ post) = value k mid.
Proof. intros. unfold value. by rewrite lookup_mid. Qed.

Lemma iter_swap_mid pre mid post x y vx vy :
  mid !! x = Some vx → mid !! y = Some vy →
  iter_swap (length pre + x) (length pre + y) (pre ++ mid ++ post)
  = Ok (pre ++ <[y := vx]> (<[x := vy]> mid) ++ post).
Proof.
  intros Hx Hy.
  pose proof (lookup_lt_Some _ _ _ Hx). pose proof (lookup_lt_Some _ _ _ Hy).
  rewrite (iter_swap_lookup _ _ _ vx vy) by (by rewrite lookup_mid).
  rewrite insert_mid by done.
  by rewrite insert_mid by (by rewrite length_insert).
Qed.

Lemma iter_swap_mid' pre mid post x' y' x y vx vy :
  x' = length pre + x → y' = length pre + y →
  mid !! x = Some vx → mid !! y = Some vy →
  iter_swap x' y' (pre ++ mid ++ post)
  = Ok (pre ++ <[y := vx]> (<[x := vy]> mid) ++ post).
Proof. intros -> ->. apply iter_swap_mid. Qed.

(** *** Orders *)

Lemma swo_asymmetric comp : StrictWeakOrder comp → asymmetric comp.
Proof.
  intros [Hirr Htr _] x y Hxy.
  destruct (comp y x) eqn:Hyx; [|done].
  by rewrite <-(Hirr x), (Htr x y x).
Qed.

Lemma swo_not_after_trans comp :
  StrictWeakOrder comp → Transitive (not_after comp).
Proof.
  intros Hswo x y z Hxy Hyz. unfold not_after in *.
  pose proof (swo_asymmetric _ Hswo) as Hasym.
  destruct Hswo as [Hirr Htr Htied].
  destruct (comp z x) eqn:Hzx; [|done].
  destruct (comp x y) eqn:Hxy'.
  { by rewrite (Htr z x y) in Hyz. }
  destruct (comp y z) eqn:Hyz'.
  { by rewrite (Htr y z x) in Hxy. }
  destruct (Htied x y z) as [_ ?]; congruence.
Qed.

Lemma Sorted_glue (R : relation A) (lo hi : list A) (p : A) :
  Sorted R lo → Sorted R hi →
  Forall (λ x, R x p) lo → Forall (R p) hi →
  Sorted R (lo ++ p :: hi).
Proof.
  intros Hlo Hhi Hlop Hphi. induction Hlo as [|a lo Hlo IH Ha]; simpl.
  - constructor; [done|]. destruct Hphi; by constructor.
  - apply Forall_cons in Hlop as [Hap Hlop].
    constructor; [by apply IH|].
    destruct Ha; simpl; by constructor.
Qed.

(** *** The scan of [sort] *)

Lemma sort_scan_body_inv comp pivot pre post mid0 j i m :
  scan_inv comp pivot mid0 j i m → j < length m →
  ∃ i' m',
    sort_scan_body comp pivot (length pre) (i, pre ++ m ++ post) j
    = Ok (i', pre ++ m' ++ post) ∧
    scan_inv comp pivot mid0 (S j) i' m'.
Proof.
  intros (Hperm & H0 & Hij & Hlo & Hhi) Hj. unfold sort_scan_body.
  rewrite value_mid by done.
  destruct (value_is_Ok j m Hj) as (vj & Hvj & ->). simpl.
  destruct (comp vj pivot) eqn:Hc.
  - destruct (value_is_Ok i m ltac:(lia)) as (vi & Hvi & _).
    rewrite (iter_swap_mid _ _ _ _ _ vj vi) by done. simpl.
    eexists _, _. split; [done|].
    split; [|split; [|split; [|split]]].
    + by rewrite Permutation_insert_swap.
    + by rewrite !list_lookup_insert_ne by lia.
    + lia.
    + intros k x Hk. destruct (decide (k = i)) as [->|].
      * rewrite list_lookup_insert_eq by (rewrite length_insert; lia).
        by intros [= <-].
      * rewrite !list_lookup_insert_ne by lia. by apply Hlo; lia.
    + intros k x Hk. rewrite list_lookup_insert_ne by lia.
      destruct (decide (k = j)) as [->|].
      * rewrite list_lookup_insert_eq by lia. intros [= <-].
        apply (Hhi i); [lia|done].
      * rewrite list_lookup_insert_ne by lia. apply Hhi; lia.
  - eexists _, _. split; [done|].
    split; [|split; [|split; [|split]]]; [done|done|lia|done|].
    intros k x Hk. destruct (decide (k = j)) as [->|].
    + rewrite Hvj. by intros [= <-].
    + apply Hhi; lia.
Qed.

Lemma for_each_cons {S} (body : S → nat → res S) j js st :
  for_each body (j :: js) st = body st j ≫= for_each body js.
Proof. done. Qed.

Lemma sort_scan_inv comp pivot pre post mid0 cnt : ∀ j i m,
  scan_inv comp pivot mid0 j i m → j + cnt = length m →
  ∃ i' m',
    for_each (sort_scan_body comp pivot (length pre)) (seq j cnt)
      (i, pre ++ m ++ post)
    = Ok (i', pre ++ m' ++ post) ∧
    scan_inv comp pivot mid0 (length m) i' m'.
Proof.
  induction cnt as [|cnt IH]; intros j i m Hinv Hlen.
  - replace (length m) with j by lia. simpl. eauto.
  - rewrite <-cons_seq, for_each_cons.
    destruct (sort_scan_body_inv comp pivot pre post mid0 j i m)
      as (i1 & m1 & -> & Hinv1); [done|lia|]. simpl.
    assert (length m1 = length m) as Hlen1.
    { destruct Hinv as [Hp _], Hinv1 as [Hp1 _]. by rewrite Hp, Hp1. }
    rewrite <-Hlen1. apply IH; [done|lia].
Qed.

(** *** [sort] on a range in the middle of a container *)

Lemma sort_S fuel comp first last l :
  sort (S fuel) comp first last l =
    let size := last - first in
    if bool_decide (size ≤ 0) then Ok l
    else
      let pivot_it := first + size `div` 2 in
      pivot ← value pivot_it l;
      l ← (if bool_decide (pivot_it ≠ first)
           then iter_swap first pivot_it l else Ok l);
      '(i, l) ← sort_scan comp pivot first size l;
      l ← iter_swap first (first + (i - 1)) l;
      l ← sort fuel comp first (first + (i - 1)) l;
      sort fuel comp (first + i) last l.
Proof. done. Qed.

Lemma sort_mid comp fuel : ∀ pre mid post,
  length mid < fuel →
  ∃ mid',
    sort fuel comp (length pre) (length pre + length mid)
      (pre ++ mid ++ post) = Ok (pre ++ mid' ++ post) ∧
    mid' ≡ₚ mid ∧ (asymmetric comp → Sorted (not_after comp) mid').
Proof.
  induction fuel as [|fuel IH]; intros pre mid post Hfuel; [lia|].
  rewrite sort_S.
  replace (length pre + length mid - length pre) with (length mid) by lia.
  cbv zeta. case_bool_decide as Hsize.
  { assert (mid = []) as -> by (apply nil_length_inv; lia).
    exists []. split_and!; [done|done|constructor]. }
  set (h := length mid `div` 2).
  assert (h < length mid) as Hh by (apply Nat.div_lt; lia).
  rewrite value_mid by done.
  destruct (value_is_Ok h mid Hh) as (pivot & Hpivot & ->). simpl.
  (* the pivot goes to the first slot *)
  assert (∃ mid1,
    (if bool_decide (length pre + h ≠ length pre)
     then iter_swap (length pre) (length pre + h) (pre ++ mid ++ post)
     else Ok (pre ++ mid ++ post)) = Ok (pre ++ mid1 ++ post) ∧
    mid1 ≡ₚ mid ∧ mid1 !! 0 = Some pivot) as (mid1 & -> & Hperm1 & Hfirst).
  { case_bool_decide as Hne.
    - destruct (value_is_Ok 0 mid ltac:(lia)) as (v0 & Hv0 & _).
      rewrite (iter_swap_mid' pre mid post _ _ 0 h v0 pivot) by (done || lia).
      eexists. split_and!; [done|by apply Permutation_insert_swap|].
      by rewrite list_lookup_insert_ne, list_lookup_insert_eq by lia.
    - exists mid. replace h with 0 in Hpivot by lia. done. }
  simpl.
  (* the scan *)
  assert (length mid1 = length mid) as Hlen1 by (by rewrite Hperm1).
  unfold sort_scan. rewrite <-Hlen1.
  destruct (sort_scan_inv comp pivot pre post mid1 (length mid1 - 1) 1 1 mid1)
    as (i & m & -> & Hperm & Hm0 & Hi & Hlo & Hhi).
  { split_and!; [done|done|lia..]. }
  { lia. }
  simpl.
  assert (length m = length mid1) as Hlenm by (by rewrite Hperm).
  (* the pivot goes to the boundary *)
  destruct (value_is_Ok (i - 1) m ltac:(lia)) as (b & Hb & _).
  rewrite (iter_swap_mid' pre m post _ _ 0 (i - 1) pivot b) by (done || lia).
  simpl.
  set (m2 := <[i - 1 := pivot]> (<[0 := b]> m)).
  assert (length m2 = length m) as Hlen2 by (unfold m2; by rewrite !length_insert).
  assert (m2 ≡ₚ m) as Hperm2 by (by apply Permutation_insert_swap).
  assert (m2 !! (i - 1) = Some pivot) as Hm2p.
  { unfold m2. apply list_lookup_insert_eq. rewrite length_insert. lia. }
  apply take_drop_middle in Hm2p as Hsplit.
  replace (S (i - 1)) with i in Hsplit by lia.
  set (lo := take (i - 1) m2) in *. set (hi := drop i m2) in *.
  assert (length lo = i - 1) as Hlenlo by (unfold lo; rewrite length_take; lia).
  assert (length hi = length m - i) as Hlenhi by (unfold hi; rewrite length_drop; lia).
  assert (Forall (λ x, comp x pivot = true) lo) as Hlo2.
  { apply Forall_lookup. intros k x Hk.
    pose proof (lookup_lt_Some _ _ _ Hk) as Hklt.
    unfold lo in Hk. rewrite lookup_take_lt in Hk by lia. unfold m2 in Hk.
    rewrite list_lookup_insert_ne in Hk by lia.
    destruct (decide (k = 0)) as [->|].
    - rewrite list_lookup_insert_eq in Hk by lia. injection Hk as <-.
      apply (Hlo (i - 1)); [lia|done].
    - rewrite list_lookup_insert_ne in Hk by lia. apply (Hlo k); [lia|done]. }
  assert (Forall (λ x, comp x pivot = false) hi) as Hhi2.
  { apply Forall_lookup. intros k x Hk.
    pose proof (lookup_lt_Some _ _ _ Hk) as Hklt.
    unfold hi in Hk. rewrite lookup_drop in Hk. unfold m2 in Hk.
    rewrite !list_lookup_insert_ne in Hk by lia.
    apply (Hhi (i + k)); [lia|done]. }
  (* the two recursive calls *)
  rewrite <-Hsplit.
  replace (pre ++ (lo ++ pivot :: hi) ++ post)
    with (pre ++ lo ++ (pivot :: hi ++ post)) by (by rewrite <-(app_assoc lo)).
  rewrite <-Hlenlo.
  destruct (IH pre lo (pivot :: hi ++ post)) as (lo' & -> & Hplo & Hslo);
    [lia|].
  simpl.
  replace (pre ++ lo' ++ pivot :: hi ++ post)
    with ((pre ++ lo' ++ [pivot]) ++ hi ++ post)
    by (by rewrite <-!app_assoc).
  replace (length pre + i) with (length (pre ++ lo' ++ [pivot]))
    by (rewrite !length_app, Hplo; simpl; lia).
  replace (length pre + length mid1)
    with (length (pre ++ lo' ++ [pivot]) + length hi)
    by (rewrite !length_app, Hplo; simpl; lia).
  destruct (IH (pre ++ lo' ++ [pivot]) hi post) as (hi' & -> & Hphi & Hshi);
    [lia|].
  exists (lo' ++ pivot :: hi'). split_and!.
  - by rewrite <-!app_assoc.
  - by rewrite Hplo, Hphi, Hsplit, Hperm2, Hperm.
  - intros Hasym. apply Sorted_glue; [by apply Hslo|by apply Hshi|..].
    + rewrite Hplo. eapply Forall_impl; [exact Hlo2|].
      intros x Hx. by apply Hasym.
    + by rewrite Hphi.
Qed.

(** *** Ranges *)

Lemma range_split first last l :
  first ≤ last ≤ length l →
  l = take first l ++ range first last l ++ drop last l ∧
  length (take first l) = first ∧
  length (range first last l) = last - first.
Proof.
  intros Hle. unfold range. split_and!.
  - rewrite <-(take_drop first l) at 1. f_equal.
    rewrite <-(take_drop (last - first) (drop first l)) at 1. f_equal.
    rewrite drop_drop. f_equal. lia.
  - rewrite length_take. lia.
  - rewrite length_take, length_drop. lia.
Qed.

Lemma range_mid pre mid post :
  take (length pre) (pre ++ mid ++ post) = pre ∧
  range (length pre) (length pre + length mid) (pre ++ mid ++ post) = mid ∧
  drop (length pre + length mid) (pre ++ mid ++ post) = post.
Proof.
  unfold range. split_and!.
  - by rewrite take_app_length.
  - rewrite drop_app_length.
    replace (length pre + length mid - length pre) with (length mid) by lia.
    by rewrite take_app_length.
  - rewrite <-drop_drop. by rewrite !drop_app_length.
Qed.

Lemma lookup_range first last l k :
  k < last - first → range first last l !! k = l !! (first + k).
Proof. intros. unfold range. by rewrite lookup_take_lt, lookup_drop. Qed.

Lemma lookup_range_Some first last l k a :
  range first last l !! k = Some a ↔
  l !! (first + k) = Some a ∧ k < last - first.
Proof. unfold range. by rewrite lookup_take_Some, lookup_drop. Qed.

Lemma range_app first middle last l :
  first ≤ middle ≤ last →
  range first last l = range first middle l ++ range middle last l.
Proof.
  intros Hle. unfold range.
  replace (last - first) with ((middle - first) + (last - middle)) by lia.
  rewrite <-take_take_drop, drop_drop.
  by replace (first + (middle - first)) with middle by lia.
Qed.

Lemma Sorted_lookup (R : relation A) l :
  Sorted R l → ∀ k a b, l !! k = Some a → l !! S k = Some b → R a b.
Proof.
  induction 1 as [|x l Hl IH Hx]; intros k a b Ha Hb; [done|].
  destruct k as [|k]; simpl in *.
  - injection Ha as ->. destruct Hx; simpl in *; congruence.
  - by eapply IH.
Qed.

(** *** [sort] only looks at the comparator through its values *)

Lemma for_each_ext {S} (body1 body2 : S → nat → res S) js : ∀ st,
  (∀ st j, body1 st j = body2 st j) →
  for_each body1 js st = for_each body2 js st.
Proof.
  induction js as [|j js IH]; intros st Hbody; [done|].
  rewrite !for_each_cons, Hbody.
  destruct (body2 st j); simpl; [by apply IH|done].
Qed.

Lemma sort_ext comp1 comp2 fuel : ∀ first last l,
  (∀ x y, comp1 x y = comp2 x y) →
  sort fuel comp1 first last l = sort fuel comp2 first last l.
Proof.
  induction fuel as [|fuel IH]; intros first last l Hcomp; [done|].
  rewrite !sort_S. cbv zeta. case_bool_decide; [done|].
  destruct (value _ l) as [pivot|]; simpl; [|done].
  destruct (if bool_decide _ then _ else _) as [l1|]; simpl; [|done].
  unfold sort_scan.
  rewrite (for_each_ext _ (sort_scan_body comp2 pivot first)).
  2:{ intros [i m] j. unfold sort_scan_body.
      destruct (value _ m); simpl; [|done]. by rewrite Hcomp. }
  destruct (for_each _ _ _) as [[i l2]|]; simpl; [|done].
  destruct (iter_swap _ _ l2) as [l3|]; simpl; [|done].
  rewrite (IH first _ l3) by done.
  destruct (sort fuel comp2 first _ l3) as [l4|]; simpl; [|done].
  by apply IH.
Qed.

(** *** The loop of [is_sorted_until] *)

Lemma is_sorted_until_loop_S fuel comp last first next_it l :
  is_sorted_until_loop (S fuel) comp last first next_it l =
    if bool_decide (next_it = last) then Ok last
    else
      vn ← value next_it l;
      vf ← value first l;
      if comp vn vf then Ok next_it
      else is_sorted_until_loop fuel comp last (S first) (S next_it) l.
Proof. done. Qed.

Lemma is_sorted_until_loop_spec comp last l fuel : ∀ first,
  S first ≤ last ≤ length l → last - S first < fuel →
  ∃ r,
    is_sorted_until_loop fuel comp last first (S first) l = Ok r ∧
    S first ≤ r ≤ last ∧
    (∀ k a b, first ≤ k → S k < r →
       l !! k = Some a → l !! S k = Some b → comp b a = false) ∧
    (r ≠ last →
       ∃ a b, l !! (r - 1) = Some a ∧ l !! r = Some b ∧ comp b a = true).
Proof.
  induction fuel as [|fuel IH]; intros first Hle Hfuel; [lia|].
  rewrite is_sorted_until_loop_S. case_bool_decide as Hne.
  { subst last. exists (S first). split_and!; [done|lia|lia| |done].
    intros; lia. }
  destruct (value_is_Ok (S first) l ltac:(lia)) as (vn & Hvn & ->).
  destruct (value_is_Ok first l ltac:(lia)) as (vf & Hvf & ->).
  simpl. destruct (comp vn vf) eqn:Hc.
  - exists (S first). split_and!; [done|lia|lia| |].
    + intros; lia.
    + intros _. exists vf, vn. by replace (S first - 1) with first by lia.
  - destruct (IH (S first)) as (r & -> & Hr & Hsorted & Hviol); [lia..|].
    exists r. split_and!; [done|lia|lia| |done].
    intros k a b Hk1 Hk2 Ha Hb. destruct (decide (k = first)) as [->|].
    + congruence.
    + apply (Hsorted k); [lia|done..].
Qed.

Lemma is_sorted_until_spec comp fuel first last l :
  first ≤ last ≤ length l → last - first < fuel →
  ∃ r,
    is_sorted_until fuel comp first last l = Ok r ∧
    first ≤ r ≤ last ∧
    (∀ k a b, first ≤ k → S k < r →
       l !! k = Some a → l !! S k = Some b → comp b a = false) ∧
    (r ≠ last →
       first < r ∧
       ∃ a b, l !! (r - 1) = Some a ∧ l !! r = Some b ∧ comp b a = true).
Proof.
  intros Hle Hfuel.
  unfold is_sorted_until, equals, next, index_iterator.
  case_bool_decide as Hne.
  - subst last. exists first. split_and!; [done|lia|lia| |done]. intros; lia.
  - destruct (is_sorted_until_loop_spec comp last l fuel first)
      as (r & -> & ? & ? & Hviol); [lia..|].
    exists r. split_and!; [done|lia|lia|done|].
    intros Hr. split; [lia|by apply Hviol].
Qed.

(** *** [distance] and the loops of [nth_element] *)

Lemma distance_index fuel : ∀ first last : nat,
  first ≤ last → last - first < fuel →
  distance fuel first last = Ok (last - first).
Proof.
  induction fuel as [|fuel IH]; intros first last Hle Hfuel; [lia|].
  simpl. case_bool_decide as Heq.
  - subst. by rewrite Nat.sub_diag.
  - rewrite IH by lia. simpl. f_equal. lia.
Qed.

Lemma iter_swap_lookups x y l l' :
  iter_swap x y l = Ok l' →
  l' !! x = l !! y ∧ l' !! y = l !! x ∧
  (∀ k, k ≠ x → k ≠ y → l' !! k = l !! k) ∧
  length l' = length l ∧ l' ≡ₚ l.
Proof.
  intros (vx & vy & Hx & Hy & ->)%iter_swap_Ok.
  pose proof (lookup_lt_Some _ _ _ Hx). pose proof (lookup_lt_Some _ _ _ Hy).
  split_and!.
  - destruct (decide (x = y)) as [->|].
    + rewrite list_lookup_insert_eq by (by rewrite length_insert). congruence.
    + rewrite list_lookup_insert_ne, list_lookup_insert_eq by done. congruence.
  - rewrite list_lookup_insert_eq by (by rewrite length_insert). congruence.
  - intros k ??. by rewrite !list_lookup_insert_ne.
  - by rewrite !length_insert.
  - by apply Permutation_insert_swap.
Qed.

Lemma followers_nil comp l last i : followers comp l last last i = 0.
Proof. unfold followers. by rewrite Nat.sub_diag. Qed.

Lemma followers_step comp l j last i :
  j < last →
  followers comp l j last i =
    (if decide (j ≠ i ∧ precedes_at comp l i j = true) then 1 else 0)
    + followers comp l (S j) last i.
Proof.
  intros Hj. unfold followers.
  replace (last - j) with (S (last - S j)) by lia.
  rewrite <-cons_seq, filter_cons. by case_decide.
Qed.

Lemma nth_element_count_S fuel comp n last i j count l :
  nth_element_count (S fuel) comp n last i j count l =
    if bool_decide (j = last) then Ok count
    else if bool_decide (i = j) then
      nth_element_count fuel comp n last i (S j) count l
    else
      vi ← value i l;
      vj ← value j l;
      if comp vi vj then
        if bool_decide (n < S count) then Ok (S count)
        else nth_element_count fuel comp n last i (S j) (S count) l
      else nth_element_count fuel comp n last i (S j) count l.
Proof. done. Qed.

Lemma nth_element_count_spec comp n last i l fuel : ∀ j count,
  i < length l → j ≤ last ≤ length l → last - j < fuel → count ≤ n →
  nth_element_count fuel comp n last i j count l =
    Ok (if decide (count + followers comp l j last i ≤ n)
        then count + followers comp l j last i else S n).
Proof.
  induction fuel as [|fuel IH]; intros j count Hi Hj Hfuel Hcount; [lia|].
  rewrite nth_element_count_S. case_bool_decide as Hlast.
  { subst j. rewrite followers_nil, Nat.add_0_r. by rewrite decide_True. }
  rewrite followers_step by lia.
  destruct (decide (j ≠ i ∧ precedes_at comp l i j = true)) as [[Hji Hp]|Hn].
  - rewrite bool_decide_false by done.
    destruct (value_is_Ok i l Hi) as (vi & Hvi & ->).
    destruct (value_is_Ok j l ltac:(lia)) as (vj & Hvj & ->). simpl.
    unfold precedes_at in Hp. rewrite Hvi, Hvj in Hp. rewrite Hp.
    case_bool_decide.
    + rewrite decide_False by lia. f_equal. lia.
    + rewrite IH by (done || lia).
      by replace (count + S (followers comp l (S j) last i))
        with (S count + followers comp l (S j) last i) by lia.
  - case_bool_decide as Hij.
    { by rewrite IH by (done || lia). }
    destruct (value_is_Ok i l Hi) as (vi & Hvi & ->).
    destruct (value_is_Ok j l ltac:(lia)) as (vj & Hvj & ->). simpl.
    destruct (comp vi vj) eqn:Hc.
    { exfalso. apply Hn. split; [done|].
      unfold precedes_at. by rewrite Hvi, Hvj. }
    by rewrite IH by (done || lia).
Qed.

Lemma nth_element_loop_S fuel comp first nth last n i l :
  nth_element_loop (S fuel) comp first nth last n i l =
    if bool_decide (i = last) then Ok l
    else
      count ← nth_element_count (S fuel) comp n last i first 0 l;
      if bool_decide (count = n) then iter_swap nth i l
      else nth_element_loop fuel comp first nth last n (S i) l.
Proof. done. Qed.

Lemma followers_lt comp l first last i :
  first ≤ i < last → followers comp l first last i < last - first.
Proof.
  intros Hi. unfold followers.
  eapply Nat.lt_le_trans; [apply (length_filter_lt _ _ i)|].
  - apply elem_of_seq. lia.
  - by intros [? _].
  - by rewrite length_seq.
Qed.

Lemma nth_element_loop_spec comp first nth last n l fuel : ∀ i,
  first ≤ i ≤ last → last ≤ length l → (n < last - first → nth < length l) →
  (last - first) + (last - i) < fuel →
  (∀ c, first ≤ c < i → followers comp l first last c ≠ n) →
  ∃ l',
    nth_element_loop fuel comp first nth last n i l = Ok l' ∧
    ((∃ c, first ≤ c < last ∧ followers comp l first last c = n ∧
           (∀ c', first ≤ c' < c → followers comp l first last c' ≠ n) ∧
           iter_swap nth c l = Ok l') ∨
     ((∀ c, first ≤ c < last → followers comp l first last c ≠ n) ∧
      l' = l)).
Proof.
  induction fuel as [|fuel IH]; intros i Hi Hlast Hnth Hfuel Hbefore; [lia|].
  rewrite nth_element_loop_S. case_bool_decide as Hend.
  { subst i. exists l. split; [done|]. by right. }
  rewrite nth_element_count_spec by lia. simpl.
  case_bool_decide as Hcount.
  - assert (followers comp l first last i = n) as Hn by (case_decide; lia).
    pose proof (followers_lt comp l first last i ltac:(lia)) as Hlt.
    destruct (value_is_Ok nth l ltac:(lia)) as (vn & Hvn & _).
    destruct (value_is_Ok i l ltac:(lia)) as (vi & Hvi & _).
    rewrite (iter_swap_lookup nth i l vn vi) by done.
    eexists. split; [done|]. left. exists i.
    split; [lia|]. split; [done|]. split; [done|].
    by apply iter_swap_lookup.
  - apply IH; [lia..|done|lia|].
    intros c Hc. destruct (decide (c = i)) as [->|]; [|apply Hbefore; lia].
    intros Heq. apply Hcount. rewrite Heq. by rewrite decide_True.
Qed.

(** *** What is outside a range and what is inside *)

Lemma frame_perm first last l l' :
  first ≤ last ≤ length l → l' ≡ₚ l →
  (∀ k, k < first ∨ last ≤ k → l' !! k = l !! k) →
  take first l' = take first l ∧ drop last l' = drop last l ∧
  range first last l' ≡ₚ range first last l.
Proof.
  intros Hle Hperm Hframe.
  assert (length l' = length l) as Hlen by (by rewrite Hperm).
  assert (take first l' = take first l) as Htake.
  { apply list_eq. intros k. rewrite !lookup_take.
    case_decide; [|done]. apply Hframe. lia. }
  assert (drop last l' = drop last l) as Hdrop.
  { apply list_eq. intros k. rewrite !lookup_drop. apply Hframe. lia. }
  split_and!; [done..|].
  destruct (range_split first last l Hle) as (Hl & _).
  destruct (range_split first last l' ltac:(lia)) as (Hl' & _).
  rewrite Hl, Hl', Htake, Hdrop in Hperm.
  by apply Permutation_app_inv_l, Permutation_app_inv_r in Hperm.
Qed.

Lemma StronglySorted_lookup_2 (R : relation A) l :
  (∀ p q a b, p < q → l !! p = Some a → l !! q = Some b → R a b) →
  StronglySorted R l.
Proof.
  induction l as [|x l IH]; intros Hl; [constructor|].
  apply StronglySorted_cons. split.
  - apply Forall_lookup. intros k y Hk. apply (Hl 0 (S k)); [lia|done..].
  - apply IH. intros p q a b Hpq Ha Hb.
    apply (Hl (S p) (S q)); [lia|done..].
Qed.

Lemma precedes_at_eq comp l l' i j i' j' :
  l' !! i' = l !! i → l' !! j' = l !! j →
  precedes_at comp l' i' j' = precedes_at comp l i j.
Proof. intros Hi Hj. unfold precedes_at. by rewrite Hi, Hj. Qed.

Lemma precedes_at_lookup comp l i j a b :
  l !! i = Some a → l !! j = Some b → precedes_at comp l i j = comp a b.
Proof. intros Hi Hj. unfold precedes_at. by rewrite Hi, Hj. Qed.

(** *** The loops of [partial_sort] *)

Lemma partial_sort_min_S fuel comp last j min l :
  partial_sort_min (S fuel) comp last j min l =
    if bool_decide (j = last) then Ok min
    else
      vj ← value j l;
      vmin ← value min l;
      partial_sort_min fuel comp last (S j)
        (if comp vj vmin then j else min) l.
Proof. done. Qed.

Lemma partial_sort_min_spec comp last l i fuel : ∀ j min,
  i ≤ min < j → j ≤ last ≤ length l → last - j < fuel →
  ∃ m,
    partial_sort_min fuel comp last j min l = Ok m ∧ i ≤ m < last ∧
    (asymmetric comp → transitive comp →
     (∀ k, i ≤ k < j → precedes_at comp l k min = false) →
     ∀ k, i ≤ k < last → precedes_at comp l k m = false).
Proof.
  induction fuel as [|fuel IH]; intros j min Hmin Hj Hfuel; [lia|].
  rewrite partial_sort_min_S. case_bool_decide as Hend.
  { subst j. exists min. split; [done|]. split; [lia|]. by intros _ _ ?. }
  destruct (value_is_Ok j l ltac:(lia)) as (vj & Hvj & ->).
  destruct (value_is_Ok min l ltac:(lia)) as (vmin & Hvmin & ->). simpl.
  destruct (IH (S j) (if comp vj vmin then j else min))
    as (m & -> & Hm & Hleast); [destruct (comp vj vmin); lia|lia..|].
  exists m. split; [done|]. split; [done|].
  intros Hasym Htrans Hbefore. apply Hleast; [done..|].
  intros k Hk. destruct (comp vj vmin) eqn:Hc.
  - destruct (decide (k = j)) as [->|].
    + rewrite (precedes_at_lookup comp l j j vj vj) by done.
      destruct (comp vj vj) eqn:Hjj; [|done]. by rewrite (Hasym _ _ Hjj) in Hjj.
    + destruct (value_is_Ok k l ltac:(lia)) as (vk & Hvk & _).
      rewrite (precedes_at_lookup comp l k j vk vj) by done.
      specialize (Hbefore k ltac:(lia)).
      rewrite (precedes_at_lookup comp l k min vk vmin) in Hbefore by done.
      destruct (comp vk vj) eqn:Hkj; [|done].
      by rewrite (Htrans vk vj vmin) in Hbefore.
  - destruct (decide (k = j)) as [->|].
    + by rewrite (precedes_at_lookup comp l j min vj vmin).
    + apply Hbefore. lia.
Qed.

Lemma partial_sort_loop_S fuel comp middle last i l :
  partial_sort_loop (S fuel) comp middle last i l =
    if bool_decide (i = middle) then Ok l
    else
      min ← partial_sort_min (S fuel) comp last (S i) i l;
      l ← (if negb (bool_decide (i = min)) then iter_swap i min l else Ok l);
      partial_sort_loop fuel comp middle last (S i) l.
Proof. done. Qed.

Lemma partial_sort_loop_spec comp first middle last l0 fuel : ∀ i l,
  first ≤ i ≤ middle → middle ≤ last ≤ length l → last - i < fuel →
  l ≡ₚ l0 → (∀ k, k < first ∨ last ≤ k → l !! k = l0 !! k) →
  ∃ l',
    partial_sort_loop fuel comp middle last i l = Ok l' ∧
    l' ≡ₚ l0 ∧ (∀ k, k < first ∨ last ≤ k → l' !! k = l0 !! k) ∧
    (asymmetric comp → transitive comp →
     (∀ p q, first ≤ p < i → p < q < last → precedes_at comp l q p = false) →
     ∀ p q, first ≤ p < middle → p < q < last →
            precedes_at comp l' q p = false).
Proof.
  induction fuel as [|fuel IH]; intros i l Hi Hlast Hfuel Hperm Hframe; [lia|].
  rewrite partial_sort_loop_S. case_bool_decide as Hend.
  { subst i. exists l. repeat (split; [done|]). by intros _ _ ?. }
  destruct (partial_sort_min_spec comp last l i (S fuel) (S i) i)
    as (m & -> & Hm & Hleast); [lia..|]. simpl.
  (* the least value goes to position i *)
  assert (∃ l1,
    (if negb (bool_decide (i = m)) then iter_swap i m l else Ok l) = Ok l1 ∧
    l1 !! i = l !! m ∧ l1 !! m = l !! i ∧
    (∀ k, k ≠ i → k ≠ m → l1 !! k = l !! k) ∧ l1 ≡ₚ l)
    as (l1 & -> & Hl1i & Hl1m & Hl1 & Hperm1).
  { case_bool_decide as Him; simpl.
    - subst m. exists l. by split_and!.
    - destruct (value_is_Ok i l ltac:(lia)) as (vi & Hvi & _).
      destruct (value_is_Ok m l ltac:(lia)) as (vm & Hvm & _).
      pose proof (iter_swap_lookup i m l vi vm Hvi Hvm) as Hswap.
      rewrite Hswap. eexists. split; [done|].
      destruct (iter_swap_lookups _ _ _ _ Hswap) as (? & ? & ? & _ & ?).
      by split_and!. }
  simpl.
  destruct (IH (S i) l1) as (l' & -> & Hperm' & Hframe' & Hsorted').
  { lia. }
  { by rewrite Hperm1. }
  { lia. }
  { by rewrite Hperm1. }
  { intros k Hk. rewrite Hl1 by lia. by apply Hframe. }
  exists l'. split; [done|]. split; [done|]. split; [done|].
  intros Hasym Htrans Hbefore. apply Hsorted'; [done..|].
  specialize (Hleast Hasym Htrans).
  assert (∀ k, i ≤ k < last → precedes_at comp l k m = false) as Hleast'.
  { apply Hleast. intros k Hk. replace k with i by lia.
    destruct (value_is_Ok i l ltac:(lia)) as (vi & Hvi & _).
    rewrite (precedes_at_lookup comp l i i vi vi) by done.
    destruct (comp vi vi) eqn:Hii; [|done]. by rewrite (Hasym _ _ Hii) in Hii. }
  (* where the value of a position after p was before the exchange *)
  assert (∀ q, i < q < last → ∃ q', i ≤ q' < last ∧ l1 !! q = l !! q')
    as Hfrom.
  { intros q Hq. destruct (decide (q = m)) as [->|].
    - exists i. split; [lia|done].
    - exists q. split; [lia|]. apply Hl1; lia. }
  intros p q Hp Hq. destruct (decide (p = i)) as [->|].
  - destruct (Hfrom q ltac:(lia)) as (q' & Hq' & Hlq).
    rewrite (precedes_at_eq comp l l1 q' m q i) by done.
    by apply Hleast'.
  - assert (l1 !! p = l !! p) as Hlp by (apply Hl1; lia).
    destruct (decide (q = i)) as [->|].
    + rewrite (precedes_at_eq comp l l1 m p i p) by done.
      apply Hbefore; lia.
    + destruct (decide (q < i)) as [Hqi|Hqi].
      * rewrite (precedes_at_eq comp l l1 q p q p);
          [apply Hbefore; lia|apply Hl1; lia|done].
      * destruct (Hfrom q ltac:(lia)) as (q' & Hq' & Hlq).
        rewrite (precedes_at_eq comp l l1 q' p q p) by done.
        apply Hbefore; lia.
Qed.

(** *** The heap: [distance], [Vector] and [copy] *)

Lemma distance_iterator src fuel : ∀ i j,
  i ≤ j → j - i < fuel →
  distance fuel (Iterator src i) (Iterator src j) = Ok (j - i).
Proof.
  induction fuel as [|fuel IH]; intros i j Hle Hfuel; [lia|].
  simpl. case_bool_decide as Heq.
  - injection Heq as ->. by rewrite Nat.sub_diag.
  - rewrite IH by (try lia; destruct (decide (i = j)); [congruence|lia]).
    simpl. f_equal. assert (i ≠ j) by congruence. lia.
Qed.

Lemma range_cons first last l v :
  first < last → l !! first = Some v →
  range first last l = v :: range (S first) last l.
Proof.
  intros Hlt Hv. unfold range.
  replace (last - first) with (S (last - S first)) by lia.
  by rewrite (drop_S _ _ _ Hv).
Qed.

Lemma range_nil first l : range first first l = [].
Proof. unfold range. by rewrite Nat.sub_diag. Qed.

Lemma range_0 last l : range 0 last l = take last l.
Proof. unfold range. by rewrite Nat.sub_0_r. Qed.

Lemma Vector_S fuel first last (h : heap A) :
  Vector (S fuel) first last h =
    if bool_decide (first = last) then Ok []
    else
      v ← get first h;
      vs ← Vector fuel (next first) last h;
      Ok (v :: vs).
Proof. done. Qed.

Lemma Vector_spec src (h : heap A) c fuel : ∀ i j,
  h !! src = Some c → i ≤ j ≤ length c → j - i < fuel →
  Vector fuel (Iterator src i) (Iterator src j) h = Ok (range i j c).
Proof.
  induction fuel as [|fuel IH]; intros i j Hc Hle Hfuel; [lia|].
  rewrite Vector_S. case_bool_decide as Heq.
  { injection Heq as ->. by rewrite range_nil. }
  assert (i ≠ j) by congruence.
  destruct (value_is_Ok i c ltac:(lia)) as (v & Hv & Hval).
  unfold get. simpl. rewrite Hc, Hval. simpl.
  rewrite IH by (done || lia). simpl.
  by rewrite (range_cons i j c v) by (done || lia).
Qed.

Lemma copy_S fuel first last (vector : list A) output (h : heap A) :
  copy (S fuel) first last vector output h =
    if bool_decide (first = last) then Ok (h, output)
    else
      v ← value first vector;
      h ← put output v h;
      copy fuel (S first) last vector (next output) h.
Proof. done. Qed.

Lemma copy_spec src (vector : list A) b fuel : ∀ a o (h : heap A) c,
  h !! src = Some c → a ≤ b ≤ length vector →
  o + (b - a) ≤ length c → b - a < fuel →
  copy fuel a b vector (Iterator src o) h =
    Ok (<[src := take o c ++ range a b vector ++ drop (o + (b - a)) c]> h,
        Iterator src (o + (b - a))).
Proof.
  induction fuel as [|fuel IH]; intros a o h c Hc Hle Hout Hfuel; [lia|].
  rewrite copy_S. case_bool_decide as Heq.
  { subst a. rewrite range_nil, Nat.sub_diag, Nat.add_0_r, app_nil_l.
    by rewrite take_drop, list_insert_id. }
  destruct (value_is_Ok a vector ltac:(lia)) as (v & Hv & ->). simpl.
  unfold put. simpl. rewrite Hc. rewrite set_value_Ok by lia. simpl.
  pose proof (lookup_lt_Some _ _ _ Hc) as Hsrc.
  rewrite (IH (S a) (S o) _ (<[o := v]> c));
    [|by rewrite list_lookup_insert_eq|lia|rewrite length_insert; lia|lia].
  rewrite list_insert_insert_eq. f_equal. f_equal.
  - f_equal.
    rewrite (take_S_r _ _ v) by (apply list_lookup_insert_eq; lia).
    rewrite take_insert_ge by lia. rewrite drop_insert_lt by lia.
    rewrite (range_cons a b vector v) by (done || lia).
    replace (S o + (b - S a)) with (o + (b - a)) by lia.
    by rewrite <-app_assoc.
  - f_equal. lia.
Qed.

Lemma lookup_overwrite c o (w : list A) k :
  o + length w ≤ length c →
  (take o c ++ w ++ drop (o + length w) c) !! k =
    if decide (o ≤ k < o + length w) then w !! (k - o) else c !! k.
Proof.
  intros Hlen. assert (length (take o c) = o) as Htake
    by (rewrite length_take; lia).
  case_decide as Hk.
  - rewrite lookup_app_r by lia. rewrite Htake.
    by rewrite lookup_app_l by lia.
  - destruct (decide (k < o)).
    + rewrite lookup_app_l by lia. by rewrite lookup_take_lt.
    + rewrite lookup_app_r by lia. rewrite lookup_app_r by lia.
      rewrite lookup_drop, Htake. f_equal. lia.
Qed.

Lemma partial_sort_copy_spec fuel comp si so i j o e (h : heap A) cin cout :
  h !! si = Some cin → i ≤ j ≤ length cin →
  h !! so = Some cout → o ≤ e ≤ length cout →
  j - i < fuel → e - o < fuel →
  ∃ sorted,
    sorted ≡ₚ range i j cin ∧
    (asymmetric comp → Sorted (not_after comp) sorted) ∧
    partial_sort_copy fuel comp (Iterator si i) (Iterator si j)
      (Iterator so o) (Iterator so e) h =
      Ok (<[so := take o cout ++ take ((j - i) `min` (e - o)) sorted
                  ++ drop (o + (j - i) `min` (e - o)) cout]> h,
          Iterator so (o + (j - i) `min` (e - o))).
Proof.
  intros Hcin Hin Hcout Hout Hfuel1 Hfuel2. unfold partial_sort_copy.
  rewrite !distance_iterator by lia. simpl.
  rewrite (Vector_spec si h cin) by (done || lia). simpl.
  destruct (range_split i j cin Hin) as (_ & _ & Hlen).
  destruct (sort_mid comp fuel [] (range i j cin) []) as (sorted & Hsort & Hperm & Hsorted);
    [lia|].
  simpl in Hsort. rewrite !app_nil_r in Hsort. rewrite Hsort. simpl.
  assert (length sorted = j - i) as Hlens by (by rewrite Hperm).
  exists sorted. split; [done|]. split; [done|].
  case_bool_decide as Hsize.
  - rewrite (copy_spec so sorted _ fuel 0 o h cout) by (done || lia).
    rewrite Nat.sub_0_r, range_0. by rewrite Nat.min_r by lia.
  - rewrite (copy_spec so sorted _ fuel 0 o h cout) by (done || lia).
    rewrite Nat.sub_0_r, range_0, Hlens. by rewrite Nat.min_l by lia.
Qed.

(** *** [sort] on a range of a container *)

Lemma sort_range comp fuel first last l :
  first ≤ last ≤ length l → last - first < fuel →
  ∃ l',
    sort fuel comp first last l = Ok l' ∧ length l' = length l ∧
    take first l' = take first l ∧ drop last l' = drop last l ∧
    range first last l' ≡ₚ range first last l ∧
    (asymmetric comp → Sorted (not_after comp) (range first last l')).
Proof.
  intros Hle Hfuel.
  destruct (range_split first last l Hle) as (Hl & Hpre & Hmid).
  set (pre := take first l) in *. set (mid := range first last l) in *.
  set (post := drop last l) in *.
  destruct (sort_mid comp fuel pre mid post) as (mid' & Hsort & Hperm & Hsorted);
    [lia|].
  replace (length pre) with first in Hsort by done.
  replace (first + length mid) with last in Hsort by lia.
  rewrite <-Hl in Hsort. exists (pre ++ mid' ++ post).
  assert (length mid' = length mid) as Hlen' by (by rewrite Hperm).
  assert (length (pre ++ mid' ++ post) = length l) as Hlenl.
  { rewrite (f_equal length Hl), !length_app. lia. }
  destruct (range_mid pre mid' post) as (Htake & Hrange & Hdrop).
  rewrite Hpre, Hlen', Hmid in *.
  replace (first + (last - first)) with last in * by lia.
  by rewrite Htake, Hrange, Hdrop.
Qed.

Lemma sort_small comp fuel first last l :
  first ≤ last ≤ length l → last - first < fuel → last - first ≤ 1 →
  sort fuel comp first last l = Ok l.
Proof.
  intros Hle Hfuel Hsmall.
  destruct (sort_range comp fuel first last l Hle Hfuel)
    as (l' & -> & Hlen & Htake & Hdrop & Hperm & _).
  f_equal.
  destruct (range_split first last l Hle) as (Hl & _ & Hlenr).
  destruct (range_split first last l' ltac:(lia)) as (Hl' & _).
  rewrite Hl', Hl at 1. rewrite Htake, Hdrop. do 2 f_equal.
  destruct (range first last l) as [|x [|y r]]; simpl in Hlenr; [| |lia].
  - by apply Permutation_nil_r.
  - by apply Permutation_singleton_r.
Qed.

Lemma sort_scan_boundary comp pivot first last l :
  first < last → last ≤ length l → l !! first = Some pivot →
  ∃ i l',
    sort_scan comp pivot first (last - first) l = Ok (i, l') ∧
    1 ≤ i ≤ last - first.
Proof.
  intros Hlt Hlast Hpivot.
  destruct (range_split first last l ltac:(lia)) as (Hl & Hpre & Hmid).
  set (pre := take first l) in *. set (mid := range first last l) in *.
  set (post := drop last l) in *.
  assert (mid !! 0 = Some pivot) as Hmid0.
  { unfold mid. rewrite lookup_range by lia. by rewrite Nat.add_0_r. }
  unfold sort_scan. rewrite <-Hmid, <-Hpre.
  clear Hpivot Hlast. clearbody pre mid post. subst l.
  destruct (sort_scan_inv comp pivot pre post mid (length mid - 1) 1 1 mid)
    as (i & m & -> & Hperm & _ & Hi & _).
  { split; [done|]. split; [done|]. split; [lia|]. split; intros; lia. }
  { lia. }
  exists i, (pre ++ m ++ post). split; [done|]. lia.
Qed.

(** *** No algorithm runs out of fuel on a range *)

Lemma finishes_bind {T U} (m : res T) (f : T → res U) :
  finishes m → (∀ t, m = Ok t → finishes (f t)) → finishes (m ≫= f).
Proof.
  intros Hm Hf. destruct m as [t|e]; simpl; [by apply Hf|].
  intros [= ->]. by apply Hm.
Qed.

Lemma finishes_Err {T U} (e : error) :
  finishes (Err (T:=T) e) → finishes (Err (T:=U) e).
Proof. intros He [= ->]. by apply He. Qed.

Lemma value_finishes it l : finishes (value it l).
Proof. unfold value. by destruct (l !! it). Qed.

Lemma set_value_finishes it v l : finishes (set_value it v l).
Proof. unfold set_value. by case_decide. Qed.

Lemma iter_swap_finishes x y l : finishes (iter_swap x y l).
Proof.
  unfold iter_swap.
  repeat (apply finishes_bind; [apply value_finishes || apply set_value_finishes|];
          intros ? _).
  apply set_value_finishes.
Qed.

Lemma sort_scan_body_bound comp pivot first i l j :
  finishes (sort_scan_body comp pivot first (i, l) j) ∧
  ∀ i' l', sort_scan_body comp pivot first (i, l) j = Ok (i', l') →
           i ≤ i' ≤ S i.
Proof.
  unfold sort_scan_body.
  pose proof (value_finishes (first + j) l) as Hvalue.
  destruct (value (first + j) l) as [vj|];
    [|split; [by eapply finishes_Err|done]].
  simpl. destruct (comp vj pivot).
  - pose proof (iter_swap_finishes (first + j) (first + i) l) as Hswap.
    destruct (iter_swap _ _ l); simpl;
      [|split; [by eapply finishes_Err|done]].
    split; [done|]. intros i' l' [= <- <-]. lia.
  - split; [done|]. intros i' l' [= <- <-]. lia.
Qed.

Lemma sort_scan_bound comp pivot first js : ∀ i l,
  finishes (for_each (sort_scan_body comp pivot first) js (i, l)) ∧
  ∀ i' l', for_each (sort_scan_body comp pivot first) js (i, l) = Ok (i', l') →
           i ≤ i' ≤ i + length js.
Proof.
  induction js as [|j js IH]; intros i l.
  { split; [done|]. intros i' l' [= <- <-]. simpl. lia. }
  rewrite for_each_cons.
  destruct (sort_scan_body_bound comp pivot first i l j) as [Hfin Hbound].
  destruct (sort_scan_body comp pivot first (i, l) j) as [[i1 l1]|];
    [|split; [by eapply finishes_Err|done]].
  simpl. specialize (Hbound i1 l1 eq_refl).
  destruct (IH i1 l1) as [Hfin1 Hbound1]. split; [done|].
  intros i' l' Hrun. specialize (Hbound1 i' l' Hrun). lia.
Qed.

Lemma sort_finishes comp fuel : ∀ first last l,
  last - first < fuel → finishes (sort fuel comp first last l).
Proof.
  induction fuel as [|fuel IH]; intros first last l Hfuel; [lia|].
  rewrite sort_S. cbv zeta. case_bool_decide; [done|].
  apply finishes_bind; [apply value_finishes|]. intros pivot _.
  apply finishes_bind.
  { case_bool_decide; [apply iter_swap_finishes|done]. }
  intros l1 _. unfold sort_scan.
  destruct (sort_scan_bound comp pivot first (seq 1 (last - first - 1)) 1 l1)
    as [Hfin Hbound].
  apply finishes_bind; [done|]. intros [i l2] Hscan.
  specialize (Hbound i l2 Hscan). rewrite length_seq in Hbound.
  apply finishes_bind; [apply iter_swap_finishes|]. intros l3 _.
  apply finishes_bind; [apply IH; lia|]. intros l4 _.
  apply IH. lia.
Qed.

Lemma partial_sort_min_finishes comp last l fuel : ∀ j min,
  j ≤ last → last - j < fuel →
  finishes (partial_sort_min fuel comp last j min l).
Proof.
  induction fuel as [|fuel IH]; intros j min Hj Hfuel; [lia|].
  rewrite partial_sort_min_S. case_bool_decide; [done|].
  apply finishes_bind; [apply value_finishes|]. intros vj _.
  apply finishes_bind; [apply value_finishes|]. intros vmin _.
  apply IH; lia.
Qed.

Lemma partial_sort_loop_finishes comp middle last fuel : ∀ i l,
  i ≤ middle ≤ last → last - i < fuel →
  finishes (partial_sort_loop fuel comp middle last i l).
Proof.
  induction fuel as [|fuel IH]; intros i l Hi Hfuel; [lia|].
  rewrite partial_sort_loop_S. case_bool_decide; [done|].
  apply finishes_bind; [apply partial_sort_min_finishes; lia|]. intros min _.
  apply finishes_bind.
  { destruct (negb _); [apply iter_swap_finishes|done]. }
  intros l1 _. apply IH; lia.
Qed.

Lemma nth_element_count_finishes comp n last i l fuel : ∀ j count,
  j ≤ last → last - j < fuel →
  finishes (nth_element_count fuel comp n last i j count l).
Proof.
  induction fuel as [|fuel IH]; intros j count Hj Hfuel; [lia|].
  rewrite nth_element_count_S. case_bool_decide; [done|].
  case_bool_decide; [apply IH; lia|].
  apply finishes_bind; [apply value_finishes|]. intros vi _.
  apply finishes_bind; [apply value_finishes|]. intros vj _.
  destruct (comp vi vj); [case_bool_decide; [done|]|]; apply IH; lia.
Qed.

Lemma nth_element_loop_finishes comp first nth last n fuel : ∀ i l,
  first ≤ i ≤ last → (last - first) + (last - i) < fuel →
  finishes (nth_element_loop fuel comp first nth last n i l).
Proof.
  induction fuel as [|fuel IH]; intros i l Hi Hfuel; [lia|].
  rewrite nth_element_loop_S. case_bool_decide; [done|].
  apply finishes_bind; [apply nth_element_count_finishes; lia|].
  intros count _. case_bool_decide; [apply iter_swap_finishes|].
  apply IH; lia.
Qed.

Lemma is_sorted_until_loop_finishes comp last l fuel : ∀ first next_it,
  next_it ≤ last → last - next_it < fuel →
  finishes (is_sorted_until_loop fuel comp last first next_it l).
Proof.
  induction fuel as [|fuel IH]; intros first next_it Hnext Hfuel; [lia|].
  rewrite is_sorted_until_loop_S. case_bool_decide; [done|].
  apply finishes_bind; [apply value_finishes|]. intros vn _.
  apply finishes_bind; [apply value_finishes|]. intros vf _.
  destruct (comp vn vf); [done|]. apply IH; lia.
Qed.

Lemma Vector_bound src (h : heap A) fuel : ∀ i j,
  i ≤ j → j - i < fuel →
  finishes (Vector fuel (Iterator src i) (Iterator src j) h) ∧
  ∀ vector, Vector fuel (Iterator src i) (Iterator src j) h = Ok vector →
            length vector = j - i.
Proof.
  induction fuel as [|fuel IH]; intros i j Hle Hfuel; [lia|].
  rewrite Vector_S. case_bool_decide as Heq.
  { injection Heq as ->. split; [done|]. intros ? [= <-]. simpl. lia. }
  assert (i ≠ j) by congruence.
  destruct (get (Iterator src i) h) as [v|e] eqn:Hget; simpl.
  2:{ split; [|done]. unfold get in Hget. simpl in Hget.
      destruct (h !! src) as [c|]; [|by injection Hget as <-].
      pose proof (value_finishes i c) as Hv. rewrite Hget in Hv.
      by eapply finishes_Err. }
  destruct (IH (S i) j) as [Hfin Hlen]; [lia..|].
  destruct (Vector fuel _ _ h) as [vs|]; simpl;
    [|split; [by eapply finishes_Err|done]].
  split; [done|]. intros ? [= <-]. simpl. rewrite (Hlen vs eq_refl). lia.
Qed.

Lemma put_finishes it v (h : heap A) : finishes (put it v h).
Proof.
  unfold put. destruct (h !! source it) as [c|]; [|done].
  pose proof (set_value_finishes (index it) v c) as Hset.
  destruct (set_value _ v c); [done|]. by eapply finishes_Err.
Qed.

Lemma copy_finishes (vector : list A) b fuel : ∀ a output (h : heap A),
  a ≤ b → b - a < fuel → finishes (copy fuel a b vector output h).
Proof.
  induction fuel as [|fuel IH]; intros a output h Ha Hfuel; [lia|].
  rewrite copy_S. case_bool_decide; [done|].
  apply finishes_bind; [apply value_finishes|]. intros v _.
  apply finishes_bind; [apply put_finishes|]. intros h1 _.
  apply IH; lia.
Qed.

Lemma partial_sort_copy_finishes fuel comp si so i j o e (h : heap A) :
  i ≤ j → o ≤ e → j - i < fuel → e - o < fuel →
  finishes (partial_sort_copy fuel comp (Iterator si i) (Iterator si j)
              (Iterator so o) (Iterator so e) h).
Proof.
  intros Hin Hout Hfuel1 Hfuel2. unfold partial_sort_copy.
  rewrite !distance_iterator by lia. simpl.
  destruct (Vector_bound si h fuel i j) as [Hfin Hlen]; [lia..|].
  apply finishes_bind; [done|]. intros vector Hvector.
  specialize (Hlen vector Hvector).
  destruct (sort_mid comp fuel [] vector []) as (sorted & Hsort & Hperm & _);
    [lia|].
  simpl in Hsort. rewrite !app_nil_r in Hsort. rewrite Hsort. simpl.
  assert (length sorted = j - i) by (by rewrite Hperm).
  case_bool_decide; apply copy_finishes; lia.
Qed.
End Facts.

(** ** [sort] on ordinary and on reverse iterators *)

Section PositionFacts.
Context {A : Type}.
Implicit Types (l : list A) (comp : @Comparator A).

Lemma sort_at_S fuel comp first last l :
  sort_at (S fuel) comp first last l =
    let size := (position_index last - position_index first)%Z in
    if bool_decide (size ≤ 0)%Z then Ok l
    else
      let pivot_it := position_advance first (size `div` 2)%Z in
      pivot ← position_value pivot_it l;
      l ← (if bool_decide (position_index pivot_it ≠ position_index first)
           then position_swap first pivot_it l else Ok l);
      '(i, l) ← for_each (sort_at_scan_body comp pivot first)
                   (seq 1 (Z.to_nat size - 1)) (1, l);
      l ← position_swap first (position_advance first (Z.of_nat i - 1)) l;
      l ← sort_at fuel comp first
            (position_advance first (Z.of_nat i - 1)) l;
      sort_at fuel comp (position_advance first (Z.of_nat i)) last l.
Proof. done. Qed.






(** On a range of reverse iterators, over one element at least or over
    none, the difference of the indices is at most zero, and [sort]
    returns at once. *)
Lemma sort_at_reversed comp fuel (first last : Z) l :
  (last ≤ first)%Z →
  sort_at (S fuel) comp (Reversed first) (Reversed last) l = Ok l.
Proof.
  intros Hle. rewrite sort_at_S. cbv zeta. cbn [position_index].
  by rewrite bool_decide_true by lia.
Qed.

End PositionFacts.

Lemma less_StrictWeakOrder : StrictWeakOrder less.
Proof.
  unfold less. split.
  - intros x. apply Nat.ltb_irrefl.
  - intros x y z ?%Nat.ltb_lt ?%Nat.ltb_lt. apply Nat.ltb_lt. lia.
  - intros x y z ?%Nat.ltb_ge ?%Nat.ltb_ge ?%Nat.ltb_ge ?%Nat.ltb_ge.
    split; apply Nat.ltb_ge; lia.
Qed.

Lemma key_less_StrictWeakOrder : StrictWeakOrder key_less.
Proof.
  destruct less_StrictWeakOrder as [Hirr Htr Htied]. unfold key_less. split.
  - intros x. apply Hirr.
  - intros x y z. apply Htr.
  - intros x y z. apply Htied.
Qed.

(** * The contracts *)

Section Contracts.
Context {A : Type}.
Implicit Types (l : list A) (comp : @Comparator A).


(** C4. After [partial_sort] the range is still a permutation of what it
    was and the rest of the container is untouched; the prefix
    [[first, middle)] is sorted, and no value at or after [middle] is
    before a value of the prefix, so that the prefix holds
    [distance(first, middle)] smallest values of the range; when tied
    values are equal, the prefix is the first [distance(first, middle)]
    values of the sorted range.  With [middle = first] nothing changes,
    with [middle = last] the whole range is sorted. *)
Theorem partial_sort_smallest fuel comp first middle last l :
  StrictWeakOrder comp →
  first ≤ middle ≤ last → last ≤ length l →
  last - first < fuel →
  ∃ l',
    partial_sort fuel comp first middle last l = Ok l' ∧
    take first l' = take first l ∧ drop last l' = drop last l ∧
    range first middle l' ++ range middle last l' ≡ₚ range first last l ∧
    length (range first middle l') = middle - first ∧
    StronglySorted (not_after comp) (range first middle l') ∧
    (∀ a b, a ∈ range first middle l' → b ∈ range middle last l' →
            comp b a = false) ∧
    (∀ s, (∀ x y, comp x y = false → comp y x = false → x = y) →
          s ≡ₚ range first last l → StronglySorted (not_after comp) s →
          range first middle l' = take (middle - first) s) ∧
    (middle = first → l' = l) ∧
    (middle = last → StronglySorted (not_after comp) (range first last l')).
Proof.
  intros Hswo Hmid Hlast Hfuel. unfold partial_sort.
  destruct (partial_sort_loop_spec comp first middle last l fuel first l)
    as (l' & Hrun & Hperm & Hframe & Hdom); [lia|lia|lia|done|done|].
  specialize (Hdom (swo_asymmetric _ Hswo) (swo_trans _ Hswo)).
  specialize (Hdom ltac:(intros; lia)).
  destruct (frame_perm first last l l') as (Htake & Hdrop & Hrange);
    [lia|done..|].
  assert (length l' = length l) as Hlen by (by rewrite Hperm).
  assert (StronglySorted (not_after comp) (range first middle l')) as Hsorted.
  { apply StronglySorted_lookup_2. intros p q a b Hpq.
    intros [Ha Hp]%lookup_range_Some [Hb Hq]%lookup_range_Some.
    unfold not_after.
    rewrite <-(precedes_at_lookup comp l' (first + q) (first + p) b a) by done.
    apply Hdom; lia. }
  assert (length (range first middle l') = middle - first) as Hlenp.
  { destruct (range_split first middle l') as (_ & _ & Hl); [lia|done]. }
  assert (∀ a b, a ∈ range first middle l' → b ∈ range middle last l' →
                 comp b a = false) as Hleast.
  { intros a b [p [Ha Hp]%lookup_range_Some]%list_elem_of_lookup.
    intros [q [Hb Hq]%lookup_range_Some]%list_elem_of_lookup.
    rewrite <-(precedes_at_lookup comp l' (middle + q) (first + p) b a) by done.
    apply Hdom; lia. }
  exists l'. rewrite Hrun. split; [done|].
  split; [done|]. split; [done|]. split; [by rewrite <-range_app|].
  split; [done|]. split; [done|]. split; [done|]. split; [|split].
  - intros s Htied Hs Hssorted.
    destruct (sort_mid comp (S (length (range middle last l'))) []
                (range middle last l') [])
      as (rest & _ & Hprest & Hsrest); [lia|].
    specialize (Hsrest (swo_asymmetric _ Hswo)).
    apply Sorted_StronglySorted in Hsrest; [|by apply swo_not_after_trans].
    assert (AntiSymm eq (not_after comp)) as Hanti.
    { intros x y Hxy Hyx. by apply Htied. }
    assert (range first middle l' ++ rest = s) as <-.
    { apply (StronglySorted_unique (not_after comp)).
      - apply StronglySorted_app_2; [|done..].
        intros a b Ha Hb. apply Hleast; [done|]. by rewrite <-Hprest.
      - done.
      - by rewrite Hprest, <-range_app, Hs. }
    by rewrite <-Hlenp, take_app_length.
  - intros ->. destruct fuel as [|fuel]; [lia|].
    rewrite partial_sort_loop_S, bool_decide_true in Hrun by done. congruence.
  - by intros ->.
Qed.

(** C5. [partial_sort_copy] writes [n] values, where [n] is the least of
    the lengths of the input and of the output range: the first [n]
    values of the input range sorted, at the [n] positions from
    [output_first] on, and it returns the position after them.  When one
    of the two ranges is empty the heap is as it was and [output_first]
    is returned. *)
Theorem partial_sort_copy_writes fuel comp first last output_first
    output_last (h : heap A) cin cout :
  StrictWeakOrder comp →
  source last = source first → h !! source first = Some cin →
  index first ≤ index last ≤ length cin →
  source output_last = source output_first →
  h !! source output_first = Some cout →
  index output_first ≤ index output_last ≤ length cout →
  index last - index first < fuel →
  index output_last - index output_first < fuel →
  let n := (index last - index first)
             `min` (index output_last - index output_first) in
  let result := Iterator (source output_first) (index output_first + n) in
  ∃ sorted h',
    partial_sort_copy fuel comp first last output_first output_last h
    = Ok (h', result) ∧
    sorted ≡ₚ range (index first) (index last) cin ∧
    StronglySorted (not_after comp) sorted ∧
    length (take n sorted) = n ∧
    h' = <[source output_first :=
             take (index output_first) cout ++ take n sorted
             ++ drop (index output_first + n) cout]> h ∧
    (∀ k, k < n →
       get (Iterator (source output_first) (index output_first + k)) h'
       = value k sorted) ∧
    (index first = index last ∨ index output_first = index output_last →
     h' = h ∧ result = output_first).
Proof.
  destruct first as [si i], last as [si' j], output_first as [so o],
    output_last as [so' e]. simpl.
  intros Hswo -> Hcin Hin -> Hcout Hout Hfuel1 Hfuel2.
  destruct (partial_sort_copy_spec fuel comp si so i j o e h cin cout)
    as (sorted & Hperm & Hsorted & Hrun); [done..|].
  set (n := (j - i) `min` (e - o)) in *.
  destruct (range_split i j cin Hin) as (_ & _ & Hlen).
  assert (length sorted = j - i) as Hlens by (by rewrite Hperm).
  assert (length (take n sorted) = n) as Hlent by (rewrite length_take; lia).
  exists sorted. eexists. split; [exact Hrun|].
  split; [done|]. split; [|split; [done|split; [done|split]]].
  - apply Sorted_StronglySorted; [by apply swo_not_after_trans|].
    by apply Hsorted, swo_asymmetric.
  - intros k Hk. unfold get. simpl.
    rewrite list_lookup_insert_eq by (by eapply lookup_lt_Some).
    unfold value. rewrite <-Hlent at 2.
    rewrite lookup_overwrite by lia. rewrite decide_True by lia.
    replace (o + k - o) with k by lia. by rewrite lookup_take_lt.
  - intros Hempty. assert (n = 0) as -> by lia.
    rewrite take_0, app_nil_l, Nat.add_0_r, take_drop.
    by rewrite list_insert_id.
Qed.

(** C6, with the output range taken into account.  [partial_sort_copy]
    changes the value of no position but the ones it writes, the [n]
    positions from [output_first] on, where [n] is the least of the
    lengths of the two ranges; so the values of the input range are
    unchanged when the output is in another container, or at positions of
    the same container that are not in the input range. *)
Theorem partial_sort_copy_frame fuel comp first last output_first
    output_last (h : heap A) cin cout :
  source last = source first → h !! source first = Some cin →
  index first ≤ index last ≤ length cin →
  source output_last = source output_first →
  h !! source output_first = Some cout →
  index output_first ≤ index output_last ≤ length cout →
  index last - index first < fuel →
  index output_last - index output_first < fuel →
  let n := (index last - index first)
             `min` (index output_last - index output_first) in
  ∃ h' result,
    partial_sort_copy fuel comp first last output_first output_last h
    = Ok (h', result) ∧
    (∀ it, ¬ written output_first n it → get it h' = get it h) ∧
    (source output_first ≠ source first ∨
     index last ≤ index output_first ∨
     index output_first + n ≤ index first →
     ∀ it, in_range first last it → get it h' = get it h).
Proof.
  destruct first as [si i], last as [si' j], output_first as [so o],
    output_last as [so' e]. simpl.
  intros -> Hcin Hin -> Hcout Hout Hfuel1 Hfuel2.
  destruct (partial_sort_copy_spec fuel comp si so i j o e h cin cout)
    as (sorted & Hperm & _ & Hrun); [done..|].
  set (n := (j - i) `min` (e - o)) in *.
  destruct (range_split i j cin Hin) as (_ & _ & Hlen).
  assert (length sorted = j - i) as Hlens by (by rewrite Hperm).
  assert (length (take n sorted) = n) as Hlent by (rewrite length_take; lia).
  eexists _, _. split; [exact Hrun|].
  assert (∀ it, ¬ written (Iterator so o) n it →
    get it (<[so := take o cout ++ take n sorted ++ drop (o + n) cout]> h)
    = get it h) as Hframe.
  { intros [s k] Hit. unfold written in Hit. simpl in Hit. unfold get. simpl.
    destruct (decide (s = so)) as [->|Hs].
    - rewrite list_lookup_insert_eq by (by eapply lookup_lt_Some).
      rewrite Hcout. unfold value. rewrite <-Hlent at 2.
      rewrite lookup_overwrite by lia.
      rewrite decide_False; [done|]. rewrite Hlent. intros ?. by apply Hit.
    - by rewrite list_lookup_insert_ne. }
  split; [done|].
  intros Hdisjoint [s k] [Hs Hk]. simpl in *. apply Hframe.
  intros [Hs' Hk']. simpl in *. subst. lia.
Qed.

(** C7. [is_sorted_until] returns the first position of the range whose
    value is before the value of the position just before it, and [last]
    when there is none, as in a range of at most one element; [is_sorted]
    is true exactly when [is_sorted_until] returns [last]. *)
Theorem is_sorted_until_first_violation fuel comp first last l :
  first ≤ last ≤ length l →
  last - first < fuel →
  ∃ r,
    is_sorted_until fuel comp first last l = Ok r ∧
    first ≤ r ≤ last ∧
    (∀ k a b, first ≤ k → S k < r →
       l !! k = Some a → l !! S k = Some b → comp b a = false) ∧
    (r ≠ last →
       first < r ∧
       ∃ a b, l !! (r - 1) = Some a ∧ l !! r = Some b ∧ comp b a = true) ∧
    (last - first ≤ 1 → r = last) ∧
    is_sorted fuel comp first last l = Ok (bool_decide (r = last)) ∧
    (is_sorted fuel comp first last l = Ok true ↔
     is_sorted_until fuel comp first last l = Ok last).
Proof.
  intros Hle Hfuel.
  destruct (is_sorted_until_spec comp fuel first last l Hle Hfuel)
    as (r & Hr & Hrange & Hsorted & Hviol).
  exists r.
  split; [done|]. split; [done|]. split; [done|]. split; [done|].
  split; [|split].
  - intros Hsize. destruct (decide (r = last)) as [|Hr']; [done|].
    apply Hviol in Hr' as (? & a & b & Ha & Hb%lookup_lt_Some & _).
    destruct Hrange as [_ Hrange]. apply Nat.le_lteq in Hrange as [?|?]; lia.
  - unfold is_sorted. by rewrite Hr.
  - unfold is_sorted. rewrite Hr. unfold equals, index_iterator.
    change (Ok r ≫= _) with (Ok (T:=bool) (bool_decide (r = last))).
    case_bool_decide as Hd.
    + by subst r.
    + split; [done|]. by intros [= ?].
Qed.

(** C8. On a range [[first, last)], with [last] reachable from [first],
    no algorithm runs out of fuel, given fuel above twice the length of
    the range: the call returns, or it fails on an iterator outside the
    container; and on a range inside its container every algorithm returns
    a result.  In [sort] the scan leaves the boundary [i] with
    [1 ≤ i ≤ size], so the two ranges it then sorts,
    [[first, first + (i - 1))] and [[first + i, last)], are strictly
    shorter than the range itself; a range of at most one element is
    returned as it is. *)
Theorem algorithms_terminate fuel comp first last l :
  first ≤ last →
  2 * (last - first) < fuel →
  (finishes (sort fuel comp first last l) ∧
   finishes (stable_sort fuel comp first last l) ∧
   (∀ middle, first ≤ middle ≤ last →
      finishes (partial_sort fuel comp first middle last l)) ∧
   (∀ nth, first ≤ nth ≤ last →
      finishes (nth_element fuel comp first nth last l)) ∧
   finishes (is_sorted_until fuel comp first last l) ∧
   finishes (is_sorted fuel comp first last l) ∧
   (∀ (h : heap A) src out o e,
      o ≤ e → e - o < fuel →
      finishes (partial_sort_copy fuel comp (Iterator src first)
                  (Iterator src last) (Iterator out o) (Iterator out e) h))) ∧
  (last ≤ length l →
   (∃ l', sort fuel comp first last l = Ok l') ∧
   (∃ l', stable_sort fuel comp first last l = Ok l') ∧
   (∀ middle, first ≤ middle ≤ last →
      ∃ l', partial_sort fuel comp first middle last l = Ok l') ∧
   (∀ nth, first ≤ nth ≤ last →
      ∃ l', nth_element fuel comp first nth last l = Ok l') ∧
   (∃ r, is_sorted_until fuel comp first last l = Ok r) ∧
   (∃ b, is_sorted fuel comp first last l = Ok b) ∧
   (∀ (h : heap A) src out o e cout,
      h !! src = Some l → h !! out = Some cout →
      o ≤ e ≤ length cout → e - o < fuel →
      ∃ h' r,
        partial_sort_copy fuel comp (Iterator src first) (Iterator src last)
          (Iterator out o) (Iterator out e) h = Ok (h', r)) ∧
   (last - first ≤ 1 → sort fuel comp first last l = Ok l) ∧
   (∀ pivot, first < last → l !! first = Some pivot →
      ∃ i l',
        sort_scan comp pivot first (last - first) l = Ok (i, l') ∧
        (first + (i - 1)) - first < last - first ∧
        last - (first + i) < last - first)).
Proof.
  intros Hle Hfuel.
  assert (finishes (is_sorted_until fuel comp first last l)) as Huntil.
  { unfold is_sorted_until, equals, next, index_iterator.
    case_bool_decide; [done|]. apply is_sorted_until_loop_finishes; lia. }
  split.
  { split; [|split; [|split; [|split; [|split; [|split]]]]].
    - apply sort_finishes. lia.
    - apply sort_finishes. lia.
    - intros middle Hmid. apply partial_sort_loop_finishes; lia.
    - intros nth Hnth. unfold nth_element.
      rewrite distance_index by lia. apply nth_element_loop_finishes; lia.
    - done.
    - unfold is_sorted. by apply finishes_bind.
    - intros h src out o e Ho Hfuel2. apply partial_sort_copy_finishes; lia. }
  intros Hlast.
  split; [|split; [|split; [|split; [|split; [|split; [|split; [|split]]]]]]].
  - destruct (sort_range comp fuel first last l) as (l' & ? & _);
      [lia|lia|eauto].
  - unfold stable_sort.
    destruct (sort_range (ramda comp) fuel first last l) as (l' & ? & _);
      [lia|lia|eauto].
  - intros middle Hmid. unfold partial_sort.
    destruct (partial_sort_loop_spec comp first middle last l fuel first l)
      as (l' & ? & _); [lia|lia|lia|done|done|eauto].
  - intros nth Hnth. unfold nth_element.
    rewrite distance_index by lia.
    destruct (nth_element_loop_spec comp first nth last (nth - first) l
                fuel first) as (l' & ? & _); [lia..| |eauto].
    intros; lia.
  - destruct (is_sorted_until_spec comp fuel first last l) as (r & ? & _);
      [lia|lia|eauto].
  - destruct (is_sorted_until_spec comp fuel first last l) as (r & Hr & _);
      [lia|lia|].
    unfold is_sorted. rewrite Hr. eauto.
  - intros h src out o e cout Hsrc Hout Ho Hfuel2.
    destruct (partial_sort_copy_spec fuel comp src out first last o e h l cout)
      as (sorted & _ & _ & ?); [done|lia|done|done|lia|done|eauto].
  - intros Hsmall. apply sort_small; [lia|lia|done].
  - intros pivot Hlt Hpivot.
    destruct (sort_scan_boundary comp pivot first last l)
      as (i & l' & ? & Hi); [done|lia|done|].
    exists i, l'. split; [done|lia].
Qed.

(** C9. [nth_element] swaps at most once.  It exchanges the values of
    [nth] and of the first position of the range whose value is before
    the values of exactly [distance(first, nth)] other positions of the
    range, and every other position keeps its value; when the range has
    no such position, the container is returned as it was. *)
Theorem nth_element_one_swap fuel comp first nth last l :
  first ≤ nth ≤ last → last ≤ length l →
  2 * (last - first) < fuel →
  ∃ l',
    nth_element fuel comp first nth last l = Ok l' ∧
    ((∃ c, first ≤ c < last ∧
           followers comp l first last c = nth - first ∧
           (∀ c', first ≤ c' < c →
              followers comp l first last c' ≠ nth - first) ∧
           iter_swap nth c l = Ok l' ∧
           l' !! nth = l !! c ∧ l' !! c = l !! nth ∧
           (∀ k, k ≠ nth → k ≠ c → l' !! k = l !! k)) ∨
     ((∀ c, first ≤ c < last →
         followers comp l first last c ≠ nth - first) ∧
      l' = l)).
Proof.
  intros Hnth Hlast Hfuel. unfold nth_element.
  rewrite distance_index by lia. simpl.
  destruct (nth_element_loop_spec comp first nth last (nth - first) l fuel first)
    as (l' & -> & Hcases); [lia..| |].
  { intros; lia. }
  exists l'. split; [done|].
  destruct Hcases as [(c & Hc & Hcount & Hmin & Hswap)|[Hnone ->]].
  - left. exists c.
    destruct (iter_swap_lookups _ _ _ _ Hswap) as (? & ? & ? & _).
    repeat (split; [done|]). done.
  - by right.
Qed.

(** C10. When [comp] is asymmetric, as every strict weak ordering is,
    the comparator [stable_sort] derives from it is [comp] itself on
    every two values, and [stable_sort] returns what [sort] returns. *)
Theorem stable_sort_is_sort fuel comp first last l :
  asymmetric comp →
  (∀ x y, ramda comp x y = comp x y) ∧
  stable_sort fuel comp first last l = sort fuel comp first last l.
Proof.
  intros Hasym.
  assert (∀ x y, ramda comp x y = comp x y) as Hramda.
  { intros x y. unfold ramda. destruct (comp x y) eqn:Hxy; [|done].
    by rewrite (Hasym x y Hxy). }
  split; [done|]. unfold stable_sort. by apply sort_ext.
Qed.

End Contracts.

(** * The contracts at work *)

(** C2. The value [nth_element] brings to [nth] is before the values of
    [distance(first, nth)] positions, not after them: on [5,3,8,1,9,2]
    with [nth] at index 2 it brings 5 to index 2, where the sorted range
    has 3. *)
Theorem nth_element_third_of_six :
  nth_element 13 less 0 2 6 [5; 3; 8; 1; 9; 2] = Ok [8; 3; 5; 1; 9; 2] ∧
  sort 7 less 0 6 [5; 3; 8; 1; 9; 2] = Ok [1; 2; 3; 5; 8; 9].
Proof. split; by vm_compute. Qed.

(** C3. [stable_sort] does not keep tied values in their order: of two
    pairs with the same key, the second comes out first. *)
Theorem stable_sort_reorders_ties :
  stable_sort 3 key_less 0 2 [(1, 0); (1, 1)] = Ok [(1, 1); (1, 0)] ∧
  key_less (1, 0) (1, 1) = false ∧ key_less (1, 1) (1, 0) = false.
Proof. split_and!; by vm_compute. Qed.


(** C6 does not hold when the output range is the input range: the values
    of the input range are then the sorted ones. *)
Lemma partial_sort_copy_onto_input :
  partial_sort_copy 3 less (Iterator 0 0) (Iterator 0 2)
    (Iterator 0 0) (Iterator 0 2) [[2; 1]] = Ok ([[1; 2]], Iterator 0 2) ∧
  in_range (Iterator 0 0) (Iterator 0 2) (Iterator 0 0) ∧
  get (Iterator 0 0) [[2; 1]] = Ok 2 ∧
  get (Iterator 0 0) [[1; 2]] = Ok 1.
Proof.
  split; [by vm_compute|]. split; [|split; by vm_compute].
  unfold in_range. simpl. lia.
Qed.

(** [nth_element] leaves a range with equal values alone when no value is
    before exactly [distance(first, nth)] others. *)
Example nth_element_no_candidate :
  nth_element 5 less 0 1 2 [1; 1] = Ok [1; 1].
Proof. by vm_compute. Qed.

(** ** The contracts on the range of the spec's scenario *)


Lemma partial_sort_smallest_witness :
  StrictWeakOrder less ∧ 0 ≤ 3 ≤ 6 ∧ 6 ≤ length [5; 3; 8; 1; 9; 2] ∧
  6 - 0 < 7 ∧
  ∃ l',
    partial_sort 7 less 0 3 6 [5; 3; 8; 1; 9; 2] = Ok l' ∧
    StronglySorted (not_after less) (range 0 3 l') ∧
    (∀ a b, a ∈ range 0 3 l' → b ∈ range 3 6 l' → less b a = false).
Proof.
  assert (0 ≤ 3 ≤ 6) as H1 by lia.
  assert (6 ≤ length [5; 3; 8; 1; 9; 2]) as H2 by (simpl; lia).
  assert (6 - 0 < 7) as H3 by lia.
  split; [exact less_StrictWeakOrder|]. split; [exact H1|].
  split; [exact H2|]. split; [exact H3|].
  destruct (partial_sort_smallest 7 less 0 3 6 [5; 3; 8; 1; 9; 2]
              less_StrictWeakOrder H1 H2 H3)
    as (l' & Hrun & _ & _ & _ & _ & Hsorted & Hleast & _).
  exists l'. split; [exact Hrun|]. split; [exact Hsorted|exact Hleast].
Defined.

Lemma partial_sort_copy_writes_witness :
  let h := [[5; 3; 8; 1; 9; 2]; [0; 0; 0; 0; 0]] in
  ∃ sorted h',
    partial_sort_copy 7 less (Iterator 0 0) (Iterator 0 6) (Iterator 1 1)
      (Iterator 1 4) h = Ok (h', Iterator 1 4) ∧
    sorted ≡ₚ [5; 3; 8; 1; 9; 2] ∧
    StronglySorted (not_after less) sorted ∧
    h' = <[1 := [0] ++ take 3 sorted ++ [0]]> h.
Proof.
  intros h.
  destruct (partial_sort_copy_writes 7 less (Iterator 0 0) (Iterator 0 6)
              (Iterator 1 1) (Iterator 1 4) h [5; 3; 8; 1; 9; 2]
              [0; 0; 0; 0; 0] less_StrictWeakOrder)
    as (sorted & h' & Hrun & Hperm & Hsorted & _ & Hh' & _);
    [reflexivity|reflexivity|simpl; lia|reflexivity|reflexivity
    |simpl; lia|simpl; lia|simpl; lia|].
  exists sorted, h'. split; [exact Hrun|]. split; [exact Hperm|].
  split; [exact Hsorted|exact Hh'].
Defined.

Lemma partial_sort_copy_frame_witness :
  let h := [[5; 3; 8; 1; 9; 2]; [0; 0; 0; 0; 0]] in
  ∃ h' result,
    partial_sort_copy 7 less (Iterator 0 0) (Iterator 0 6) (Iterator 1 1)
      (Iterator 1 4) h = Ok (h', result) ∧
    ∀ it, in_range (Iterator 0 0) (Iterator 0 6) it → get it h' = get it h.
Proof.
  intros h.
  destruct (partial_sort_copy_frame 7 less (Iterator 0 0) (Iterator 0 6)
              (Iterator 1 1) (Iterator 1 4) h [5; 3; 8; 1; 9; 2]
              [0; 0; 0; 0; 0])
    as (h' & result & Hrun & _ & Hinput);
    [reflexivity|reflexivity|simpl; lia|reflexivity|reflexivity
    |simpl; lia|simpl; lia|simpl; lia|].
  exists h', result. split; [exact Hrun|].
  apply Hinput. left. simpl. lia.
Defined.

Lemma is_sorted_until_first_violation_witness :
  0 ≤ 4 ≤ length [1; 3; 2; 4] ∧ 4 - 0 < 5 ∧
  ∃ r,
    is_sorted_until 5 less 0 4 [1; 3; 2; 4] = Ok r ∧
    is_sorted 5 less 0 4 [1; 3; 2; 4] = Ok (bool_decide (r = 4)).
Proof.
  assert (0 ≤ 4 ≤ length [1; 3; 2; 4]) as H1 by (simpl; lia).
  assert (4 - 0 < 5) as H2 by lia.
  split; [exact H1|]. split; [exact H2|].
  destruct (is_sorted_until_first_violation 5 less 0 4 [1; 3; 2; 4] H1 H2)
    as (r & Hr & _ & _ & _ & _ & Hsorted & _).
  exists r. split; [exact Hr|exact Hsorted].
Defined.

Lemma algorithms_terminate_witness :
  0 ≤ 6 ∧ 2 * (6 - 0) < 13 ∧
  finishes (sort 13 less 0 6 [5; 3; 8; 1; 9; 2]) ∧
  (∃ l', sort 13 less 0 6 [5; 3; 8; 1; 9; 2] = Ok l') ∧
  (∃ l', nth_element 13 less 0 2 6 [5; 3; 8; 1; 9; 2] = Ok l').
Proof.
  assert (0 ≤ 6) as H1 by lia.
  assert (2 * (6 - 0) < 13) as H2 by lia.
  split; [exact H1|]. split; [exact H2|].
  destruct (algorithms_terminate 13 less 0 6 [5; 3; 8; 1; 9; 2] H1 H2)
    as ((Hfin & _) & Hok).
  destruct Hok as (Hsort & _ & _ & Hnth & _); [simpl; lia|].
  split; [exact Hfin|]. split; [exact Hsort|]. apply Hnth. lia.
Defined.

Lemma nth_element_one_swap_witness :
  0 ≤ 2 ≤ 6 ∧ 6 ≤ length [5; 3; 8; 1; 9; 2] ∧ 2 * (6 - 0) < 13 ∧
  ∃ l',
    nth_element 13 less 0 2 6 [5; 3; 8; 1; 9; 2] = Ok l' ∧
    ((∃ c, iter_swap 2 c [5; 3; 8; 1; 9; 2] = Ok l') ∨
     l' = [5; 3; 8; 1; 9; 2]).
Proof.
  assert (0 ≤ 2 ≤ 6) as H1 by lia.
  assert (6 ≤ length [5; 3; 8; 1; 9; 2]) as H2 by (simpl; lia).
  assert (2 * (6 - 0) < 13) as H3 by lia.
  split; [exact H1|]. split; [exact H2|]. split; [exact H3|].
  destruct (nth_element_one_swap 13 less 0 2 6 [5; 3; 8; 1; 9; 2] H1 H2 H3)
    as (l' & Hrun & [(c & _ & _ & _ & Hswap & _)|[_ Hsame]]).
  - exists l'. split; [exact Hrun|]. left. exists c. exact Hswap.
  - exists l'. split; [exact Hrun|]. right. exact Hsame.
Defined.

Lemma stable_sort_is_sort_witness :
  asymmetric less ∧
  stable_sort 7 less 0 6 [5; 3; 8; 1; 9; 2] = sort 7 less 0 6 [5; 3; 8; 1; 9; 2].
Proof.
  split; [exact (swo_asymmetric less less_StrictWeakOrder)|].
  exact (proj2 (stable_sort_is_sort 7 less 0 6 [5; 3; 8; 1; 9; 2]
                  (swo_asymmetric less less_StrictWeakOrder))).
Defined.

(** * More about the algorithms *)

Section MoreFacts.
Context {A : Type}.
Implicit Types (l : list A) (comp : @Comparator A).

Lemma Sorted_lookup_2 (R : relation A) l :
  (∀ k a b, l !! k = Some a → l !! S k = Some b → R a b) → Sorted R l.
Proof.
  induction l as [|x l IH]; intros Hl; [constructor|].
  constructor.
  - apply IH. intros k a b Ha Hb. by apply (Hl (S k)).
  - destruct l as [|y l]; constructor. by apply (Hl 0).
Qed.

Lemma StronglySorted_lookup (R : relation A) l :
  StronglySorted R l →
  ∀ p q a b, p < q → l !! p = Some a → l !! q = Some b → R a b.
Proof.
  induction 1 as [|x l Hl IH Hx]; intros p q a b Hpq Ha Hb; [done|].
  destruct q as [|q]; [lia|]. destruct p as [|p]; simpl in *.
  - injection Ha as ->. rewrite Forall_lookup in Hx. by eapply Hx.
  - apply (IH p q); [lia|done..].
Qed.

(** [is_sorted_until] returns the end of the longest sorted prefix. *)
Lemma is_sorted_until_prefix comp fuel first last l :
  first ≤ last ≤ length l → last - first < fuel →
  ∃ r,
    is_sorted_until fuel comp first last l = Ok r ∧ first ≤ r ≤ last ∧
    ∀ m, first ≤ m ≤ last →
         (Sorted (not_after comp) (range first m l) ↔ m ≤ r).
Proof.
  intros Hle Hfuel.
  destruct (is_sorted_until_spec comp fuel first last l Hle Hfuel)
    as (r & Hr & Hrange & Hsorted & Hviol).
  exists r. split; [done|]. split; [done|]. intros m Hm. split.
  - intros Hs. destruct (decide (m ≤ r)) as [|Hmr]; [done|]. exfalso.
    destruct Hviol as (Hfr & a & b & Ha & Hb & Hc); [lia|].
    assert (comp b a = false) as Hc'; [|congruence].
    apply (Sorted_lookup _ _ Hs (r - 1 - first) a b).
    + apply lookup_range_Some. split; [|lia]. rewrite <-Ha. f_equal. lia.
    + apply lookup_range_Some. split; [|lia]. rewrite <-Hb. f_equal. lia.
  - intros Hmr. apply Sorted_lookup_2.
    intros k a b [Ha Hk]%lookup_range_Some [Hb Hk']%lookup_range_Some.
    apply (Hsorted (first + k)); [lia|lia|done|].
    rewrite <-Hb. f_equal. lia.
Qed.

Lemma is_sorted_Sorted comp fuel first last l :
  first ≤ last ≤ length l → last - first < fuel →
  ∃ b, is_sorted fuel comp first last l = Ok b ∧
       (b = true ↔ Sorted (not_after comp) (range first last l)).
Proof.
  intros Hle Hfuel.
  destruct (is_sorted_until_prefix comp fuel first last l Hle Hfuel)
    as (r & Hr & Hrange & Hprefix).
  unfold is_sorted. rewrite Hr. eexists. split; [done|].
  unfold equals, index_iterator. rewrite (Hprefix last) by lia.
  rewrite bool_decide_eq_true. lia.
Qed.

Lemma ramda_asymmetric comp : asymmetric (ramda comp).
Proof.
  intros x y. unfold ramda. destruct (comp x y), (comp y x); done.
Qed.

Lemma error_finishes {T} (e : error) :
  finishes (Err (T:=T) e) → e = OutOfRange.
Proof. destruct e; [done|]. by intros []. Qed.

Lemma sort_scan_body_length comp pivot first i l j i' l' :
  sort_scan_body comp pivot first (i, l) j = Ok (i', l') →
  length l' = length l.
Proof.
  unfold sort_scan_body. destruct (value (first + j) l) as [vj|]; [|done].
  simpl. destruct (comp vj pivot); [|by intros [= _ <-]].
  destruct (iter_swap _ _ l) as [l1|] eqn:Hswap; [|done].
  intros [= _ <-]. by destruct (iter_swap_lookups _ _ _ _ Hswap) as (_ & _ & _ & ? & _).
Qed.

Lemma sort_scan_out_of_range comp pivot first js : ∀ i l j,
  j ∈ js → length l ≤ first + j →
  ∀ r, for_each (sort_scan_body comp pivot first) js (i, l) ≠ Ok r.
Proof.
  induction js as [|j0 js IH]; intros i l j Hj Hlen r; [by apply elem_of_nil in Hj|].
  rewrite for_each_cons.
  destruct (sort_scan_body comp pivot first (i, l) j0) as [[i1 l1]|] eqn:Hbody;
    [|done].
  simpl. apply elem_of_cons in Hj as [->|Hj].
  - unfold sort_scan_body, value in Hbody.
    by rewrite lookup_ge_None_2 in Hbody.
  - apply (IH i1 l1 j); [done|].
    by rewrite (sort_scan_body_length _ _ _ _ _ _ _ _ Hbody).
Qed.

Lemma range_eq first last l l' :
  first ≤ last ≤ length l → length l' = length l →
  take first l' = take first l → drop last l' = drop last l →
  range first last l' = range first last l → l' = l.
Proof.
  intros Hle Hlen Htake Hdrop Hrange.
  destruct (range_split first last l Hle) as (Hl & _).
  destruct (range_split first last l' ltac:(lia)) as (Hl' & _).
  by rewrite Hl', Hl, Htake, Hdrop, Hrange.
Qed.

Lemma partial_sort_min_stays comp last l i fuel : ∀ j,
  i < j → j ≤ last ≤ length l → last - j < fuel →
  (∀ q, j ≤ q < last → precedes_at comp l q i = false) →
  partial_sort_min fuel comp last j i l = Ok i.
Proof.
  induction fuel as [|fuel IH]; intros j Hij Hj Hfuel Hafter; [lia|].
  rewrite partial_sort_min_S. case_bool_decide; [done|].
  destruct (value_is_Ok j l ltac:(lia)) as (vj & Hvj & ->).
  destruct (value_is_Ok i l ltac:(lia)) as (vi & Hvi & ->). simpl.
  specialize (Hafter j ltac:(lia)) as Hc.
  rewrite (precedes_at_lookup comp l j i vj vi) in Hc by done. rewrite Hc.
  apply IH; [lia..|]. intros q Hq. apply Hafter. lia.
Qed.

Lemma partial_sort_loop_stays comp middle last l fuel : ∀ i,
  i ≤ middle → middle ≤ last ≤ length l → last - i < fuel →
  (∀ p q, i ≤ p < middle → p < q < last → precedes_at comp l q p = false) →
  partial_sort_loop fuel comp middle last i l = Ok l.
Proof.
  induction fuel as [|fuel IH]; intros i Hi Hlast Hfuel Hsorted; [lia|].
  rewrite partial_sort_loop_S. case_bool_decide; [done|].
  rewrite partial_sort_min_stays; [|lia..|].
  2:{ intros q Hq. apply Hsorted; lia. }
  simpl. rewrite bool_decide_true by done. simpl.
  apply IH; [lia..|]. intros p q Hp Hq. apply Hsorted; lia.
Qed.

Lemma length_filter_Forall (P : A → Prop) `{∀ x, Decision (P x)} l :
  Forall P l → length (filter P l) = length l.
Proof.
  induction 1 as [|x l Hx Hl IH]; [done|].
  rewrite filter_cons, decide_True by done. simpl. by rewrite IH.
Qed.

Lemma length_filter_Forall_not (P : A → Prop) `{∀ x, Decision (P x)} l :
  Forall (λ x, ¬ P x) l → length (filter P l) = 0.
Proof.
  induction 1 as [|x l Hx Hl IH]; [done|].
  by rewrite filter_cons, decide_False by done.
Qed.

(** The followers of a position are the values of the range its value is
    before. *)
Lemma followers_filter comp l last c v :
  l !! c = Some v → comp v v = false → last ≤ length l →
  ∀ d first, last - first = d → first ≤ last →
    followers comp l first last c
    = length (filter (λ x, comp v x = true) (range first last l)).
Proof.
  intros Hc Hirr Hlast. induction d as [|d IH]; intros first Hd Hle.
  { replace first with last by lia. by rewrite followers_nil, range_nil. }
  destruct (value_is_Ok first l ltac:(lia)) as (x & Hx & _).
  rewrite followers_step by lia.
  rewrite (range_cons first last l x) by (done || lia).
  rewrite filter_cons, (IH (S first)) by lia.
  rewrite (precedes_at_lookup comp l c first v x) by done.
  destruct (decide (first = c)) as [->|Hne].
  - assert (x = v) as -> by congruence.
    rewrite decide_False by (by intros [? _]).
    by rewrite decide_False by congruence.
  - destruct (comp v x) eqn:Hvx.
    + by rewrite !decide_True by done.
    + rewrite decide_False by (by intros [_ ?]). by rewrite decide_False.
Qed.

(** In a sorted list without duplicates, where tied values are equal, a
    value is before exactly the values after it. *)
Lemma sorted_followers comp (s : list A) p v :
  (∀ x y, comp x y = false → comp y x = false → x = y) →
  StronglySorted (not_after comp) s → NoDup s →
  s !! p = Some v → comp v v = false →
  length (filter (λ x, comp v x = true) s) = length s - 1 - p.
Proof.
  intros Htied Hsorted Hnodup Hp Hirr.
  pose proof (lookup_lt_Some _ _ _ Hp) as Hlt.
  rewrite <-(take_drop_middle s p v Hp) at 1.
  rewrite filter_app, filter_cons, decide_False by congruence.
  rewrite length_app, length_filter_Forall_not, length_filter_Forall.
  - rewrite length_drop. lia.
  - apply Forall_lookup. intros q x Hq. rewrite lookup_drop in Hq.
    destruct (comp v x) eqn:Hvx; [done|].
    assert (v = x) as <-.
    { apply Htied; [done|].
      apply (StronglySorted_lookup _ _ Hsorted p (S p + q) v x); [lia|done..]. }
    assert (p = S p + q) by (by eapply NoDup_lookup). lia.
  - apply Forall_lookup. intros q x [Hq Hqp]%lookup_take_Some.
    rewrite (StronglySorted_lookup _ _ Hsorted q p x v); done.
Qed.

Lemma partial_sort_prefix comp fuel first middle last l :
  StrictWeakOrder comp →
  (∀ x y, comp x y = false → comp y x = false → x = y) →
  first ≤ middle ≤ last → last ≤ length l → last - first < fuel →
  ∃ l',
    partial_sort fuel comp first middle last l = Ok l' ∧
    ∀ s, s ≡ₚ range first last l → StronglySorted (not_after comp) s →
         range first middle l' = take (middle - first) s.
Proof.
  intros Hswo Htied Hmid Hlast Hfuel. unfold partial_sort.
  destruct (partial_sort_loop_spec comp first middle last l fuel first l)
    as (l' & Hrun & Hperm & Hframe & Hdom); [lia|lia|lia|done|done|].
  specialize (Hdom (swo_asymmetric _ Hswo) (swo_trans _ Hswo)).
  specialize (Hdom ltac:(intros; lia)).
  destruct (frame_perm first last l l') as (_ & _ & Hrange); [lia|done..|].
  assert (length l' = length l) as Hlen by (by rewrite Hperm).
  exists l'. split; [done|]. intros s Hs Hssorted.
  assert (AntiSymm eq (not_after comp)) as Hanti.
  { intros x y Hxy Hyx. by apply Htied. }
  destruct (sort_mid comp (S (length (range middle last l'))) []
              (range middle last l') [])
    as (rest & _ & Hprest & Hsrest); [lia|].
  specialize (Hsrest (swo_asymmetric _ Hswo)).
  apply Sorted_StronglySorted in Hsrest; [|by apply swo_not_after_trans].
  assert (length (range first middle l') = middle - first) as Hlenp.
  { destruct (range_split first middle l') as (_ & _ & Hl); [lia|done]. }
  assert (range first middle l' ++ rest = s) as <-.
  { apply (StronglySorted_unique (not_after comp)).
    - apply StronglySorted_app_2; [| |done].
      + intros a b [p [Ha Hp]%lookup_range_Some]%list_elem_of_lookup Hb.
        rewrite Hprest in Hb.
        apply list_elem_of_lookup in Hb as [q [Hb Hq]%lookup_range_Some].
        unfold not_after.
        rewrite <-(precedes_at_lookup comp l' (middle + q) (first + p) b a)
          by done.
        apply Hdom; lia.
      + apply StronglySorted_lookup_2. intros p q a b Hpq.
        intros [Ha Hp]%lookup_range_Some [Hb Hq]%lookup_range_Some.
        unfold not_after.
        rewrite <-(precedes_at_lookup comp l' (first + q) (first + p) b a)
          by done.
        apply Hdom; lia.
    - done.
    - by rewrite Hprest, <-range_app, Hs. }
  by rewrite <-Hlenp, take_app_length.
Qed.

(** *** [sort] does not depend on where the range is *)

Lemma iter_swap_relocate (pre mid post : list A) x y :
  x < length mid → y < length mid →
  iter_swap (length pre + x) (length pre + y) (pre ++ mid ++ post)
  = m ← iter_swap x y mid; Ok (pre ++ m ++ post).
Proof.
  intros [vx Hx]%lookup_lt_is_Some_2 [vy Hy]%lookup_lt_is_Some_2.
  by rewrite (iter_swap_mid _ _ _ _ _ vx vy), (iter_swap_lookup _ _ _ vx vy).
Qed.

Lemma sort_scan_body_relocate comp pivot (pre mid post : list A) a i j :
  i ≤ j → a + j < length mid →
  sort_scan_body comp pivot (length pre + a) (i, pre ++ mid ++ post) j
  = st ← sort_scan_body comp pivot a (i, mid) j;
    Ok (st.1, pre ++ st.2 ++ post).
Proof.
  intros Hij Hj. unfold sort_scan_body.
  rewrite <-!Nat.add_assoc, value_mid by done.
  destruct (value (a + j) mid) as [vj|]; simpl; [|done].
  destruct (comp vj pivot); [|done].
  rewrite (iter_swap_relocate pre mid post (a + j) (a + i)) by lia.
  by destruct (iter_swap (a + j) (a + i) mid).
Qed.

Lemma sort_scan_relocate comp pivot (pre post : list A) a cnt : ∀ j i mid,
  i ≤ j → a + j + cnt ≤ length mid →
  for_each (sort_scan_body comp pivot (length pre + a)) (seq j cnt)
    (i, pre ++ mid ++ post)
  = st ← for_each (sort_scan_body comp pivot a) (seq j cnt) (i, mid);
    Ok (st.1, pre ++ st.2 ++ post).
Proof.
  induction cnt as [|cnt IH]; intros j i mid Hij Hlen; [done|].
  rewrite <-cons_seq, !for_each_cons.
  rewrite sort_scan_body_relocate by lia.
  destruct (sort_scan_body_bound comp pivot a i mid j) as [_ Hbound].
  destruct (sort_scan_body comp pivot a (i, mid) j) as [[i1 m1]|] eqn:Hbody;
    simpl; [|done].
  specialize (Hbound i1 m1 eq_refl).
  apply sort_scan_body_length in Hbody.
  apply IH; lia.
Qed.

Lemma sort_scan_length comp pivot first js : ∀ i l i' l',
  for_each (sort_scan_body comp pivot first) js (i, l) = Ok (i', l') →
  length l' = length l.
Proof.
  induction js as [|j js IH]; intros i l i' l'; [by intros [= _ <-]|].
  rewrite for_each_cons.
  destruct (sort_scan_body comp pivot first (i, l) j) as [[i1 l1]|] eqn:Hbody;
    simpl; [|done].
  intros Hrest. rewrite (IH _ _ _ _ Hrest).
  by eapply sort_scan_body_length.
Qed.

Lemma sort_relocate comp (pre post : list A) fuel : ∀ a b mid,
  a ≤ b ≤ length mid → b - a < fuel →
  sort fuel comp (length pre + a) (length pre + b) (pre ++ mid ++ post)
  = m ← sort fuel comp a b mid; Ok (pre ++ m ++ post).
Proof.
  induction fuel as [|fuel IH]; intros a b mid Hab Hfuel; [lia|].
  rewrite !sort_S. cbv zeta.
  replace (length pre + b - (length pre + a)) with (b - a) by lia.
  case_bool_decide; [done|].
  assert ((b - a) `div` 2 < b - a) as Hh by (apply Nat.div_lt; lia).
  remember ((b - a) `div` 2) as h eqn:Heqh. clear Heqh.
  rewrite <-!Nat.add_assoc, value_mid by lia.
  destruct (value (a + h) mid) as [pivot|]; simpl; [|done].
  (* the pivot goes to the first slot *)
  assert ((if bool_decide (length pre + (a + h) ≠ length pre + a)
           then iter_swap (length pre + a) (length pre + (a + h))
                  (pre ++ mid ++ post)
           else Ok (pre ++ mid ++ post))
          = m ← (if bool_decide (a + h ≠ a) then iter_swap a (a + h) mid
                 else Ok mid); Ok (pre ++ m ++ post)) as ->.
  { case_bool_decide.
    - rewrite bool_decide_true by lia. apply iter_swap_relocate; lia.
    - by rewrite bool_decide_false by lia. }
  destruct (if bool_decide (a + h ≠ a) then _ else _) as [m1|] eqn:Hswap;
    simpl; [|done].
  assert (length m1 = length mid) as Hlen1.
  { case_bool_decide; [|by injection Hswap as <-].
    by destruct (iter_swap_lookups _ _ _ _ Hswap) as (_ & _ & _ & ? & _). }
  (* the scan *)
  unfold sort_scan. rewrite sort_scan_relocate by lia.
  destruct (sort_scan_bound comp pivot a (seq 1 (b - a - 1)) 1 m1)
    as [_ Hbound].
  destruct (for_each _ _ (1, m1)) as [[i m2]|] eqn:Hscan; simpl; [|done].
  specialize (Hbound i m2 eq_refl). rewrite length_seq in Hbound.
  apply sort_scan_length in Hscan.
  (* the pivot goes to the boundary *)
  rewrite <-!Nat.add_assoc.
  rewrite (iter_swap_relocate pre m2 post a (a + (i - 1))) by lia.
  destruct (iter_swap a (a + (i - 1)) m2) as [m3|] eqn:Hswap3; simpl; [|done].
  assert (length m3 = length m2) as Hlen3
    by (by destruct (iter_swap_lookups _ _ _ _ Hswap3) as (_ & _ & _ & ? & _)).
  (* the two recursive calls *)
  rewrite IH by lia.
  destruct (sort_range comp fuel a (a + (i - 1)) m3)
    as (m4 & Hrun4 & Hlen4 & _); [lia..|].
  rewrite Hrun4. simpl. apply IH; lia.
Qed.

Lemma partial_sort_copy_spec_sort fuel comp si so i j o e (h : heap A)
    cin cout :
  h !! si = Some cin → i ≤ j ≤ length cin →
  h !! so = Some cout → o ≤ e ≤ length cout →
  j - i < fuel → e - o < fuel →
  ∃ sorted,
    sort fuel comp 0 (j - i) (range i j cin) = Ok sorted ∧
    length sorted = j - i ∧
    partial_sort_copy fuel comp (Iterator si i) (Iterator si j)
      (Iterator so o) (Iterator so e) h =
      Ok (<[so := take o cout ++ take ((j - i) `min` (e - o)) sorted
                  ++ drop (o + (j - i) `min` (e - o)) cout]> h,
          Iterator so (o + (j - i) `min` (e - o))).
Proof.
  intros Hcin Hin Hcout Hout Hfuel1 Hfuel2. unfold partial_sort_copy.
  rewrite !distance_iterator by lia. simpl.
  rewrite (Vector_spec si h cin) by (done || lia). simpl.
  destruct (range_split i j cin Hin) as (_ & _ & Hlen).
  destruct (sort_range comp fuel 0 (j - i) (range i j cin))
    as (sorted & Hsort & Hlens & _); [lia..|].
  rewrite Hlen, Hsort. simpl. exists sorted.
  split; [done|]. split; [lia|].
  case_bool_decide as Hsize.
  - rewrite (copy_spec so sorted _ fuel 0 o h cout) by (done || lia).
    rewrite Nat.sub_0_r, range_0. by rewrite Nat.min_r by lia.
  - rewrite (copy_spec so sorted _ fuel 0 o h cout) by (done || lia).
    rewrite Nat.sub_0_r, range_0. replace (length sorted) with (j - i) by lia.
    by rewrite Nat.min_l by lia.
Qed.

(** The loop of [is_sorted_until] when [last] is past the end of the
    container, against the loop that stops at the end. *)
Lemma is_sorted_until_loop_past_end comp last l fuel : ∀ first,
  S first ≤ length l → length l < last → length l - S first < fuel →
  is_sorted_until_loop fuel comp last first (S first) l
  = match is_sorted_until_loop fuel comp (length l) first (S first) l with
    | Ok r => if decide (r = length l) then Err OutOfRange else Ok r
    | Err e => Err e
    end.
Proof.
  induction fuel as [|fuel IH]; intros first Hfirst Hlast Hfuel; [lia|].
  rewrite !is_sorted_until_loop_S.
  rewrite (bool_decide_false (S first = last)) by lia.
  case_bool_decide as Hend.
  { rewrite decide_True by done. unfold value.
    by rewrite (lookup_ge_None_2 l (S first)) by lia. }
  destruct (value (S first) l) as [vn|]; simpl; [|done].
  destruct (value first l) as [vf|]; simpl; [|done].
  destruct (comp vn vf).
  - by rewrite decide_False.
  - apply IH; lia.
Qed.
End MoreFacts.

Section Properties.
Context {A : Type}.
Implicit Types (l : list A) (comp : @Comparator A).

(** X1. Whatever the comparator, [sort] on a range of ordinary iterators
    of a container, whose indices rise from [first] to [last], returns a
    container of the same length in which the range is a permutation of
    what it was and nothing else has changed; for the values next to each
    other to be in order, it is enough that the comparator is
    asymmetric. *)
Theorem sort_any_comparator fuel comp first last l :
  first ≤ last ≤ length l →
  last - first < fuel →
  ∃ l',
    sort fuel comp first last l = Ok l' ∧ length l' = length l ∧
    l' ≡ₚ l ∧
    (∀ k, k < first ∨ last ≤ k → l' !! k = l !! k) ∧
    range first last l' ≡ₚ range first last l ∧
    (asymmetric comp →
     ∀ k a b, first ≤ k → S k < last →
       l' !! k = Some a → l' !! S k = Some b → comp b a = false).
Proof.
  intros Hle Hfuel.
  destruct (sort_range comp fuel first last l Hle Hfuel)
    as (l' & Hsort & Hlen & Htake & Hdrop & Hperm & Hsorted).
  exists l'. split; [done|]. split; [done|].
  destruct (range_split first last l Hle) as (Hl & _).
  destruct (range_split first last l' ltac:(lia)) as (Hl' & _).
  split; [|split; [|split; [done|]]].
  - rewrite Hl', Hl, Htake, Hdrop. by rewrite Hperm.
  - intros k [Hk|Hk].
    + rewrite <-(lookup_take_lt l' first k), <-(lookup_take_lt l first k) by done.
      by rewrite Htake.
    + replace k with (last + (k - last)) by lia.
      rewrite <-!lookup_drop. by rewrite Hdrop.
  - intros Hasym k a b Hk1 Hk2 Ha Hb.
    apply (Sorted_lookup _ _ (Hsorted Hasym) (k - first) a b).
    + rewrite lookup_range by lia. rewrite <-Ha. f_equal. lia.
    + rewrite lookup_range by lia. rewrite <-Hb. f_equal. lia.
Qed.

(** X2. Whatever the comparator, asymmetric or not, [stable_sort] on a
    range of ordinary iterators, whose indices rise from [first] to
    [last], returns the range as a permutation in which no value is
    strictly before the value just before it: the comparator it derives
    is asymmetric by construction. *)
Theorem stable_sort_any_comparator fuel comp first last l :
  first ≤ last ≤ length l →
  last - first < fuel →
  ∃ l',
    stable_sort fuel comp first last l = Ok l' ∧
    take first l' = take first l ∧ drop last l' = drop last l ∧
    range first last l' ≡ₚ range first last l ∧
    Sorted (not_after (ramda comp)) (range first last l') ∧
    (∀ k a b, first ≤ k → S k < last →
       l' !! k = Some a → l' !! S k = Some b →
       ¬ (comp b a = true ∧ comp a b = false)).
Proof.
  intros Hle Hfuel. unfold stable_sort.
  destruct (sort_range (ramda comp) fuel first last l Hle Hfuel)
    as (l' & Hsort & Hlen & Htake & Hdrop & Hperm & Hsorted).
  specialize (Hsorted (ramda_asymmetric comp)).
  exists l'. repeat (split; [done|]).
  intros k a b Hk1 Hk2 Ha Hb [Hba Hab].
  assert (not_after (ramda comp) a b) as Hnot.
  { apply (Sorted_lookup _ _ Hsorted (k - first) a b).
    - rewrite lookup_range by lia. rewrite <-Ha. f_equal. lia.
    - rewrite lookup_range by lia. rewrite <-Hb. f_equal. lia. }
  unfold not_after, ramda in Hnot. by rewrite Hba, Hab in Hnot.
Qed.

(** X3. [is_sorted] answers whether the values of the range are sorted:
    it returns true exactly when of every two values next to each other in
    the range the later is not before the earlier, and, when not being
    before is transitive, exactly when this holds of every two values of
    the range. *)
Theorem is_sorted_iff_Sorted fuel comp first last l :
  first ≤ last ≤ length l →
  last - first < fuel →
  ∃ b,
    is_sorted fuel comp first last l = Ok b ∧
    (b = true ↔ Sorted (not_after comp) (range first last l)) ∧
    (Transitive (not_after comp) →
     (b = true ↔ StronglySorted (not_after comp) (range first last l))) ∧
    (b = false ↔
     ∃ k x y, first ≤ k ∧ S k < last ∧
              l !! k = Some x ∧ l !! S k = Some y ∧ comp y x = true).
Proof.
  intros Hle Hfuel.
  destruct (is_sorted_Sorted comp fuel first last l Hle Hfuel)
    as (b & Hb & Hiff).
  exists b. split; [done|]. split; [done|]. split.
  - intros Htrans. rewrite Hiff. split.
    + by apply Sorted_StronglySorted.
    + apply StronglySorted_Sorted.
  - split.
    + intros ->.
      destruct (is_sorted_until_spec comp fuel first last l Hle Hfuel)
        as (r & Hr & Hrange & _ & Hviol).
      unfold is_sorted in Hb. rewrite Hr in Hb. injection Hb as Hb.
      unfold equals, index_iterator in Hb.
      apply bool_decide_eq_false in Hb.
      destruct (Hviol Hb) as (Hfr & x & y & Hx & Hy & Hc).
      exists (r - 1), x, y. replace (S (r - 1)) with r by lia.
      repeat (split; [done || lia|]). done.
    + intros (k & x & y & Hk1 & Hk2 & Hx & Hy & Hc).
      destruct b; [|done]. exfalso.
      assert (comp y x = false) as Hc'; [|congruence].
      apply (Sorted_lookup _ _ (proj1 Hiff eq_refl) (k - first) x y).
      * rewrite lookup_range by lia. rewrite <-Hx. f_equal. lia.
      * rewrite lookup_range by lia. rewrite <-Hy. f_equal. lia.
Qed.

(** X4. [is_sorted_until] returns the end of the longest sorted prefix of
    the range: a prefix [[first, m)] is sorted exactly when [m] is at most
    the position returned, and [is_sorted] is true on the range up to that
    position. *)
Theorem is_sorted_until_longest_prefix fuel comp first last l :
  first ≤ last ≤ length l →
  last - first < fuel →
  ∃ r,
    is_sorted_until fuel comp first last l = Ok r ∧ first ≤ r ≤ last ∧
    (∀ m, first ≤ m ≤ last →
          (Sorted (not_after comp) (range first m l) ↔ m ≤ r)) ∧
    is_sorted fuel comp first r l = Ok true ∧
    is_sorted_until fuel comp first r l = Ok r.
Proof.
  intros Hle Hfuel.
  destruct (is_sorted_until_prefix comp fuel first last l Hle Hfuel)
    as (r & Hr & Hrange & Hprefix).
  exists r. split; [done|]. split; [done|]. split; [done|].
  destruct (is_sorted_until_prefix comp fuel first r l) as (r' & Hr' & Hrange' & Hprefix');
    [lia..|].
  assert (r' = r) as ->.
  { assert (r ≤ r'); [|lia]. apply Hprefix'; [lia|]. by apply Hprefix. }
  split; [|done]. unfold is_sorted. rewrite Hr'.
  unfold equals, index_iterator.
  change (Ok r ≫= _) with (Ok (T:=bool) (bool_decide (r = r))).
  by rewrite bool_decide_true.
Qed.

(** X5. On a range of ordinary iterators, whose indices rise from [first]
    to [last], [is_sorted] accepts what [sort] and [stable_sort] return:
    after [sort] with an asymmetric comparator [is_sorted] is true on the
    range and [is_sorted_until] returns [last], and so they do after
    [stable_sort], whose result [sort] leaves in order. *)
Theorem sort_then_is_sorted fuel comp first last l :
  asymmetric comp →
  first ≤ last ≤ length l →
  last - first < fuel →
  ∃ l1 l2,
    sort fuel comp first last l = Ok l1 ∧
    is_sorted fuel comp first last l1 = Ok true ∧
    is_sorted_until fuel comp first last l1 = Ok last ∧
    stable_sort fuel comp first last l = Ok l2 ∧
    is_sorted fuel comp first last l2 = Ok true.
Proof.
  intros Hasym Hle Hfuel.
  assert (∀ c, asymmetric c → ∃ l',
    sort fuel c first last l = Ok l' ∧
    is_sorted fuel c first last l' = Ok true ∧
    is_sorted_until fuel c first last l' = Ok last) as Hboth.
  { intros c Hc.
    destruct (sort_range c fuel first last l Hle Hfuel)
      as (l' & Hsort & Hlen & _ & _ & _ & Hsorted).
    exists l'. split; [done|].
    destruct (is_sorted_until_prefix c fuel first last l') as (r & Hr & Hrange & Hprefix);
      [lia..|].
    assert (r = last) as ->.
    { assert (last ≤ r); [|lia]. apply Hprefix; [lia|]. by apply Hsorted. }
    split; [|done]. unfold is_sorted. rewrite Hr.
    unfold equals, index_iterator.
    change (Ok last ≫= _) with (Ok (T:=bool) (bool_decide (last = last))).
    by rewrite bool_decide_true. }
  destruct (Hboth comp Hasym) as (l1 & Hs1 & Hi1 & Hu1).
  exists l1, l1. repeat (split; [done|]).
  assert (∀ x y, ramda comp x y = comp x y) as Hramda.
  { intros x y. unfold ramda. destruct (comp x y) eqn:Hxy; [|done].
    by rewrite (Hasym x y Hxy). }
  unfold stable_sort. by rewrite (sort_ext (ramda comp) comp).
Qed.

(** X6. The bounds of [sort]: on a range that ends where it starts, or
    before, [sort] returns the container as it is, wherever the positions
    are; on a range with an element outside the container [sort] and
    [stable_sort] fail with an out-of-range access, whatever the
    comparator. *)
Theorem sort_bounds fuel comp first last l :
  0 < fuel →
  (last ≤ first → sort fuel comp first last l = Ok l) ∧
  (first < last → length l < last →
   sort fuel comp first last l = Err OutOfRange ∧
   stable_sort fuel comp first last l = Err OutOfRange).
Proof.
  intros Hfuel. destruct fuel as [|fuel]; [lia|]. split.
  { intros Hle. rewrite sort_S. cbv zeta. by rewrite bool_decide_true by lia. }
  intros Hlt Hlen.
  assert (∀ c, sort (S fuel) c first last l = Err OutOfRange) as Hfail;
    [|split; [apply Hfail|apply (Hfail (ramda comp))]].
  intros c. rewrite sort_S. cbv zeta. rewrite bool_decide_false by lia.
  assert ((last - first) `div` 2 < last - first) as Hh
    by (apply Nat.div_lt; lia).
  remember ((last - first) `div` 2) as h eqn:Heqh. clear Heqh.
  pose proof (value_finishes (first + h) l) as Hvalue.
  destruct (value _ l) as [pivot|e] eqn:Hpivot; simpl;
    [|by rewrite (error_finishes e Hvalue)].
  apply value_Ok, lookup_lt_Some in Hpivot.
  destruct (if bool_decide _ then iter_swap _ _ _ else _) as [l1|e] eqn:Hswap;
    simpl.
  2:{ case_bool_decide; [|done].
      pose proof (iter_swap_finishes first (first + h) l) as Hfin.
      rewrite Hswap in Hfin. by rewrite (error_finishes e Hfin). }
  assert (length l1 = length l) as Hlen1.
  { case_bool_decide; [|by injection Hswap as <-].
    by destruct (iter_swap_lookups _ _ _ _ Hswap) as (_ & _ & _ & ? & _). }
  unfold sort_scan.
  destruct (sort_scan_bound c pivot first (seq 1 (last - first - 1)) 1 l1)
    as [Hfin _].
  destruct (for_each _ _ _) as [r|e] eqn:Hscan; simpl;
    [|by rewrite (error_finishes e Hfin)].
  exfalso.
  apply (sort_scan_out_of_range c pivot first _ 1 l1 (last - first - 1)) in Hscan;
    [done| |lia].
  apply elem_of_seq. lia.
Qed.

(** X7. On a range of ordinary iterators, whose indices rise from [first]
    to [last]: when tied values are equal, so that a range has one sorted
    arrangement, [sort] returns that arrangement, sorting a second time
    changes nothing, and a range that is sorted already is returned as it
    is. *)
Theorem sort_idempotent fuel comp first last l :
  StrictWeakOrder comp →
  (∀ x y, comp x y = false → comp y x = false → x = y) →
  first ≤ last ≤ length l →
  last - first < fuel →
  ∃ l',
    sort fuel comp first last l = Ok l' ∧
    (∀ s, s ≡ₚ range first last l → StronglySorted (not_after comp) s →
          range first last l' = s) ∧
    sort fuel comp first last l' = Ok l' ∧
    (StronglySorted (not_after comp) (range first last l) → l' = l).
Proof.
  intros Hswo Htied Hle Hfuel.
  assert (AntiSymm eq (not_after comp)) as Hanti.
  { intros x y Hxy Hyx. by apply Htied. }
  assert (∀ l0, first ≤ last ≤ length l0 → ∃ l',
    sort fuel comp first last l0 = Ok l' ∧ length l' = length l0 ∧
    (∀ s, s ≡ₚ range first last l0 → StronglySorted (not_after comp) s →
          range first last l' = s) ∧
    (StronglySorted (not_after comp) (range first last l0) → l' = l0))
    as Hsort.
  { intros l0 Hle0.
    destruct (sort_range comp fuel first last l0 Hle0 Hfuel)
      as (l' & Hrun & Hlen & Htake & Hdrop & Hperm & Hsorted).
    specialize (Hsorted (swo_asymmetric _ Hswo)).
    apply Sorted_StronglySorted in Hsorted; [|by apply swo_not_after_trans].
    assert (∀ s, s ≡ₚ range first last l0 →
                 StronglySorted (not_after comp) s →
                 range first last l' = s) as Hunique.
    { intros s Hs Hss.
      apply (StronglySorted_unique (not_after comp)); [done..|].
      by rewrite Hperm, Hs. }
    exists l'. split; [done|]. split; [done|]. split; [done|].
    intros Hl0. apply (range_eq first last); [done..|]. by apply Hunique. }
  destruct (Hsort l Hle) as (l' & Hrun & Hlen & Hunique & Hsame).
  exists l'. split; [done|]. split; [done|]. split; [|done].
  destruct (Hsort l' ltac:(lia)) as (l'' & Hrun' & _ & _ & Hsame').
  rewrite Hrun'. f_equal. apply Hsame'.
  destruct (sort_range comp fuel first last l Hle Hfuel)
    as (l1 & Hrun1 & _ & _ & _ & _ & Hsorted).
  assert (l1 = l') as -> by congruence.
  apply Sorted_StronglySorted; [by apply swo_not_after_trans|].
  by apply Hsorted, swo_asymmetric.
Qed.

(** X8. [partial_sort] exchanges values only when it finds one strictly
    before the current least: on a range where no value is before an
    earlier one it returns the container as it is, whatever the comparator
    and wherever [middle] is. *)
Theorem partial_sort_sorted_identity fuel comp first middle last l :
  first ≤ middle ≤ last → last ≤ length l →
  last - first < fuel →
  StronglySorted (not_after comp) (range first last l) →
  partial_sort fuel comp first middle last l = Ok l.
Proof.
  intros Hmid Hlast Hfuel Hsorted. unfold partial_sort.
  apply partial_sort_loop_stays; [lia..|].
  intros p q Hp Hq.
  destruct (value_is_Ok p l ltac:(lia)) as (a & Ha & _).
  destruct (value_is_Ok q l ltac:(lia)) as (b & Hb & _).
  rewrite (precedes_at_lookup comp l q p b a) by done.
  apply (StronglySorted_lookup _ _ Hsorted (p - first) (q - first) a b); [lia|..].
  - apply lookup_range_Some. split; [|lia]. rewrite <-Ha. f_equal. lia.
  - apply lookup_range_Some. split; [|lia]. rewrite <-Hb. f_equal. lia.
Qed.

(** X9. [partial_sort] is idempotent under a strict weak ordering: a
    second call with the same positions returns what the first call
    returned, tied values included. *)
Theorem partial_sort_idempotent fuel comp first middle last l :
  StrictWeakOrder comp →
  first ≤ middle ≤ last → last ≤ length l →
  last - first < fuel →
  ∃ l',
    partial_sort fuel comp first middle last l = Ok l' ∧
    partial_sort fuel comp first middle last l' = Ok l'.
Proof.
  intros Hswo Hmid Hlast Hfuel. unfold partial_sort.
  destruct (partial_sort_loop_spec comp first middle last l fuel first l)
    as (l' & Hrun & Hperm & Hframe & Hdom); [lia|lia|lia|done|done|].
  specialize (Hdom (swo_asymmetric _ Hswo) (swo_trans _ Hswo)).
  specialize (Hdom ltac:(intros; lia)).
  exists l'. split; [done|].
  assert (length l' = length l) as Hlen by (by rewrite Hperm).
  apply partial_sort_loop_stays; [lia..|].
  intros p q Hp Hq. apply Hdom; lia.
Qed.

(** X10. Whatever the comparator, [nth_element] returns a container of
    the same length in which the range is a permutation of what it was and
    nothing else has changed; with [nth] at [last] it returns the
    container as it is. *)
Theorem nth_element_permutes fuel comp first nth last l :
  first ≤ nth ≤ last → last ≤ length l →
  2 * (last - first) < fuel →
  ∃ l',
    nth_element fuel comp first nth last l = Ok l' ∧
    length l' = length l ∧ l' ≡ₚ l ∧
    (∀ k, k < first ∨ last ≤ k → l' !! k = l !! k) ∧
    range first last l' ≡ₚ range first last l ∧
    (nth = last → l' = l).
Proof.
  intros Hnth Hlast Hfuel. unfold nth_element.
  rewrite distance_index by lia. simpl.
  destruct (nth_element_loop_spec comp first nth last (nth - first) l fuel first)
    as (l' & -> & Hcases); [lia..| |].
  { intros; lia. }
  exists l'. split; [done|].
  destruct Hcases as [(c & Hc & Hcount & _ & Hswap)|[_ ->]].
  2:{ split; [done|]. split; [done|]. split; [done|]. by split. }
  pose proof (followers_lt comp l first last c Hc) as Hlt.
  destruct (iter_swap_lookups _ _ _ _ Hswap) as (_ & _ & Hother & Hlen & Hperm).
  assert (∀ k, k < first ∨ last ≤ k → l' !! k = l !! k) as Hframe.
  { intros k Hk. apply Hother; lia. }
  split; [done|]. split; [done|]. split; [done|]. split.
  - by destruct (frame_perm first last l l') as (_ & _ & ?); [lia|..].
  - intros ->. lia.
Qed.

(** X11. What [nth_element] selects.  On a range of ordinary iterators,
    whose indices rise from [first] to [last], of distinct values, under a
    strict weak ordering where tied values are equal, the value
    [nth_element] brings to [nth] is the one [sort] puts at the mirrored
    position [first + (last - 1 - nth)]: the value with
    [distance(first, nth)] values after it.  It is the value [sort] puts
    at [nth] only when [nth] is the middle of the range. *)
Theorem nth_element_from_the_end fuel comp first nth last l :
  StrictWeakOrder comp →
  (∀ x y, comp x y = false → comp y x = false → x = y) →
  NoDup (range first last l) →
  first ≤ nth < last → last ≤ length l →
  2 * (last - first) < fuel →
  ∃ l' ls,
    nth_element fuel comp first nth last l = Ok l' ∧
    sort fuel comp first last l = Ok ls ∧
    l' !! nth = ls !! (first + (last - 1 - nth)) ∧
    (l' !! nth = ls !! nth ↔ nth - first = last - 1 - nth).
Proof.
  intros Hswo Htied Hnodup Hnth Hlast Hfuel.
  pose proof (swo_irrefl _ Hswo) as Hirr.
  destruct (sort_range comp fuel first last l) as
    (ls & Hsort & Hlens & _ & _ & Hperm & Hsorted); [lia..|].
  specialize (Hsorted (swo_asymmetric _ Hswo)).
  apply Sorted_StronglySorted in Hsorted; [|by apply swo_not_after_trans].
  set (s := range first last ls) in *.
  assert (length s = last - first) as Hlen.
  { destruct (range_split first last ls) as (_ & _ & ?); [lia|done]. }
  assert (NoDup s) as Hnodups by (by rewrite Hperm).
  (* the followers of a position, read in the sorted range *)
  assert (∀ c v p, first ≤ c < last → l !! c = Some v → s !! p = Some v →
                   followers comp l first last c = last - first - 1 - p)
    as Hfollowers.
  { intros c v p Hc Hv Hp.
    rewrite (followers_filter comp l last c v Hv (Hirr v) Hlast (last - first))
      by lia.
    rewrite <-Hperm, <-Hlen. by apply sorted_followers. }
  unfold nth_element. rewrite distance_index by lia. simpl.
  destruct (nth_element_loop_spec comp first nth last (nth - first) l fuel first)
    as (l' & -> & Hcases); [lia..| |].
  { intros; lia. }
  exists l', ls. split; [done|]. split; [done|].
  destruct (lookup_lt_is_Some_2 s (last - 1 - nth) ltac:(lia)) as [w Hw].
  assert (ls !! (first + (last - 1 - nth)) = Some w) as Hw'.
  { by apply lookup_range_Some in Hw as [? _]. }
  assert (l' !! nth = Some w) as Hres.
  { destruct Hcases as [(c & Hc & Hcount & _ & Hswap)|[Hnone _]].
    - destruct (iter_swap_lookups _ _ _ _ Hswap) as (-> & _).
      destruct (value_is_Ok c l ltac:(lia)) as (v & Hv & _). rewrite Hv.
      assert (v ∈ s) as [p Hp]%list_elem_of_lookup.
      { rewrite Hperm. apply list_elem_of_lookup. exists (c - first).
        apply lookup_range_Some. split; [|lia]. rewrite <-Hv. f_equal. lia. }
      pose proof (lookup_lt_Some _ _ _ Hp) as Hplt.
      rewrite (Hfollowers c v p Hc Hv Hp) in Hcount.
      replace p with (last - 1 - nth) in Hp by lia. congruence.
    - exfalso. assert (w ∈ range first last l) as Hin.
      { rewrite <-Hperm. by eapply list_elem_of_lookup_2. }
      apply list_elem_of_lookup in Hin as [c [Hc Hclt]%lookup_range_Some].
      apply (Hnone (first + c)); [lia|].
      rewrite (Hfollowers (first + c) w (last - 1 - nth)); [lia|lia|done..]. }
  rewrite Hres. split; [done|]. split.
  - intros Heq.
    assert (s !! (nth - first) = Some w) as Hw2.
    { apply lookup_range_Some. split; [|lia]. rewrite Heq. f_equal. lia. }
    apply (NoDup_lookup s _ _ w Hnodups Hw2 Hw).
  - intros Heq. rewrite <-Hw'. f_equal. lia.
Qed.


(** X13. [is_sorted] accepts what [partial_sort_copy] writes: with an
    asymmetric comparator, [is_sorted] is true on the range from
    [output_first] to the position [partial_sort_copy] returns, in the
    container it has written to. *)
Theorem partial_sort_copy_then_is_sorted fuel comp first last
    output_first output_last (h : heap A) cin cout :
  asymmetric comp →
  source last = source first → h !! source first = Some cin →
  index first ≤ index last ≤ length cin →
  source output_last = source output_first →
  h !! source output_first = Some cout →
  index output_first ≤ index output_last ≤ length cout →
  index last - index first < fuel →
  index output_last - index output_first < fuel →
  ∃ h' result cout',
    partial_sort_copy fuel comp first last output_first output_last h
    = Ok (h', result) ∧
    source result = source output_first ∧
    index output_first ≤ index result ≤ index output_last ∧
    h' !! source output_first = Some cout' ∧
    is_sorted fuel comp (index output_first) (index result) cout' = Ok true.
Proof.
  destruct first as [si i], last as [si' j], output_first as [so o],
    output_last as [so' e]. simpl.
  intros Hasym -> Hcin Hin -> Hcout Hout Hfuel1 Hfuel2.
  destruct (partial_sort_copy_spec fuel comp si so i j o e h cin cout)
    as (sorted & Hperm & Hsorted & Hrun); [done..|].
  specialize (Hsorted Hasym).
  set (n := (j - i) `min` (e - o)) in *.
  destruct (range_split i j cin Hin) as (_ & _ & Hlen).
  assert (length sorted = j - i) as Hlens by (by rewrite Hperm).
  assert (length (take n sorted) = n) as Hlent by (rewrite length_take; lia).
  eexists _, _, _. split; [exact Hrun|]. simpl.
  split; [done|]. split; [lia|].
  split; [by apply list_lookup_insert_eq; eapply lookup_lt_Some|].
  set (cout' := take o cout ++ take n sorted ++ drop (o + n) cout).
  assert (length cout' = length cout) as Hlenc.
  { unfold cout'. rewrite !length_app, length_take, length_drop. lia. }
  destruct (is_sorted_Sorted comp fuel o (o + n) cout') as (b & -> & Hb);
    [lia..|].
  f_equal. apply Hb. apply Sorted_lookup_2.
  intros t x y [Hx Ht]%lookup_range_Some [Hy Ht']%lookup_range_Some.
  unfold cout' in Hx, Hy. rewrite <-Hlent in Hx at 2. rewrite <-Hlent in Hy at 2.
  rewrite lookup_overwrite, decide_True in Hx by lia.
  rewrite lookup_overwrite, decide_True in Hy by lia.
  replace (o + t - o) with t in Hx by lia.
  replace (o + S t - o) with (S t) in Hy by lia.
  apply lookup_take_Some in Hx as [Hx _], Hy as [Hy _].
  by apply (Sorted_lookup _ _ Hsorted t).
Qed.

(** X14. [sort] is local, whatever the comparator: the arrangement it
    gives a range of ordinary iterators of a container, whose indices
    rise from [first] to [last], is the one it gives the values of the
    range taken as a container of their own, from its [begin()] to its
    [end()], tied values included. *)
Theorem sort_is_local fuel comp first last l :
  first ≤ last ≤ length l →
  last - first < fuel →
  ∃ l' v,
    sort fuel comp first last l = Ok l' ∧
    sort fuel comp 0 (last - first) (range first last l) = Ok v ∧
    l' = take first l ++ v ++ drop last l ∧
    range first last l' = v.
Proof.
  intros Hle Hfuel.
  destruct (range_split first last l Hle) as (Hl & Hpre & Hmid).
  destruct (sort_range comp fuel 0 (last - first) (range first last l))
    as (v & Hv & Hlenv & _); [lia..|].
  pose proof (sort_relocate comp (take first l) (drop last l) fuel 0
                (last - first) (range first last l)) as Hrel.
  rewrite Hv, Hpre, Nat.add_0_r, <-Hl in Hrel. simpl in Hrel.
  replace (first + (last - first)) with last in Hrel by lia.
  rewrite Hrel by lia.
  eexists _, v. split; [done|]. split; [done|]. split; [done|].
  destruct (range_mid (take first l) v (drop last l)) as (_ & Hrange & _).
  rewrite Hpre, Hlenv, Hmid in Hrange.
  by replace (first + (last - first)) with last in Hrange by lia.
Qed.

(** X15. What [partial_sort_copy] writes is what [sort] leaves, whatever
    the comparator, when the input and the output range are ranges of
    ordinary iterators, whose indices rise from first to last: the value
    it writes at the [t]-th output position is the value [sort] brings to
    the [t]-th position of the input range, tied values included. *)
Theorem partial_sort_copy_writes_what_sort_leaves fuel comp first last
    output_first output_last (h : heap A) cin cout :
  source last = source first → h !! source first = Some cin →
  index first ≤ index last ≤ length cin →
  source output_last = source output_first →
  h !! source output_first = Some cout →
  index output_first ≤ index output_last ≤ length cout →
  index last - index first < fuel →
  index output_last - index output_first < fuel →
  let n := (index last - index first)
             `min` (index output_last - index output_first) in
  ∃ h' result cin',
    partial_sort_copy fuel comp first last output_first output_last h
    = Ok (h', result) ∧
    sort fuel comp (index first) (index last) cin = Ok cin' ∧
    ∀ t, t < n →
      get (Iterator (source output_first) (index output_first + t)) h'
      = value (index first + t) cin'.
Proof.
  destruct first as [si i], last as [si' j], output_first as [so o],
    output_last as [so' e]. simpl.
  intros -> Hcin Hin -> Hcout Hout Hfuel1 Hfuel2.
  destruct (partial_sort_copy_spec_sort fuel comp si so i j o e h cin cout)
    as (sorted & Hsorted & Hlens & Hrun); [done..|].
  set (n := (j - i) `min` (e - o)) in *.
  assert (length (take n sorted) = n) as Hlent by (rewrite length_take; lia).
  destruct (range_split i j cin Hin) as (Hl & Hpre & Hmid).
  pose proof (sort_relocate comp (take i cin) (drop j cin) fuel 0 (j - i)
                (range i j cin)) as Hrel.
  rewrite Hsorted, Hpre, Nat.add_0_r, <-Hl in Hrel. simpl in Hrel.
  replace (i + (j - i)) with j in Hrel by lia.
  eexists _, _, _. split; [exact Hrun|]. split; [apply Hrel; lia|].
  intros t Ht. unfold get. simpl.
  rewrite list_lookup_insert_eq by (by eapply lookup_lt_Some).
  unfold value. rewrite <-Hlent at 2.
  rewrite lookup_overwrite by lia. rewrite decide_True by lia.
  replace (o + t - o) with t by lia. rewrite lookup_take_lt by lia.
  rewrite <-(lookup_mid (take i cin) sorted (drop j cin) t) by lia.
  by rewrite Hpre.
Qed.

(** X16. Whatever the comparator, [partial_sort] returns a container of
    the same length in which the range is a permutation of what it was and
    nothing else has changed. *)
Theorem partial_sort_permutes fuel comp first middle last l :
  first ≤ middle ≤ last → last ≤ length l →
  last - first < fuel →
  ∃ l',
    partial_sort fuel comp first middle last l = Ok l' ∧
    length l' = length l ∧ l' ≡ₚ l ∧
    (∀ k, k < first ∨ last ≤ k → l' !! k = l !! k) ∧
    range first last l' ≡ₚ range first last l.
Proof.
  intros Hmid Hlast Hfuel. unfold partial_sort.
  destruct (partial_sort_loop_spec comp first middle last l fuel first l)
    as (l' & Hrun & Hperm & Hframe & _); [lia|lia|lia|done|done|].
  exists l'. split; [done|]. split; [by rewrite Hperm|].
  split; [done|]. split; [done|].
  by destruct (frame_perm first last l l') as (_ & _ & ?); [lia|..].
Qed.

(** X17. On a range that starts inside the container and runs past its
    end, [is_sorted_until] returns the first position inside the container
    whose value is before the value just before it, and [is_sorted] false,
    when there is such a position; when the part inside the container is
    sorted, both fail with an out-of-range access. *)
Theorem is_sorted_until_past_the_end fuel comp first last l :
  first < length l → length l < last →
  length l - first < fuel →
  ∃ r,
    is_sorted_until fuel comp first (length l) l = Ok r ∧
    is_sorted_until fuel comp first last l
    = (if decide (r = length l) then Err OutOfRange else Ok r) ∧
    is_sorted fuel comp first last l
    = (if decide (r = length l) then Err OutOfRange else Ok false).
Proof.
  intros Hfirst Hlast Hfuel.
  destruct (is_sorted_until_spec comp fuel first (length l) l)
    as (r & Hr & Hrange & _); [lia..|].
  exists r. split; [done|].
  assert (is_sorted_until fuel comp first last l
          = (if decide (r = length l) then Err OutOfRange else Ok r)) as Hrun.
  { unfold is_sorted_until, equals, next, index_iterator in *.
    rewrite (bool_decide_false (first = last)) by lia.
    rewrite (bool_decide_false (first = length l)) in Hr by lia.
    rewrite is_sorted_until_loop_past_end by lia. by rewrite Hr. }
  split; [done|]. unfold is_sorted. rewrite Hrun.
  case_decide; [done|]. simpl. unfold equals, index_iterator.
  by rewrite bool_decide_false by lia.
Qed.

(** X18. On a range of ordinary iterators, whose indices rise from
    [first] to [last]: when tied values are equal, [partial_sort] with
    [middle] at [last] returns the container [sort] returns. *)
Theorem partial_sort_full_is_sort fuel comp first last l :
  StrictWeakOrder comp →
  (∀ x y, comp x y = false → comp y x = false → x = y) →
  first ≤ last ≤ length l →
  last - first < fuel →
  ∃ l',
    partial_sort fuel comp first last last l = Ok l' ∧
    sort fuel comp first last l = Ok l'.
Proof.
  intros Hswo Htied Hle Hfuel.
  destruct (sort_range comp fuel first last l Hle Hfuel)
    as (ls & Hsort & Hlens & Htakes & Hdrops & Hperms & Hsorted).
  specialize (Hsorted (swo_asymmetric _ Hswo)).
  apply Sorted_StronglySorted in Hsorted; [|by apply swo_not_after_trans].
  destruct (partial_sort_prefix comp fuel first last last l)
    as (l' & Hrun & Hprefix); [done|done|lia..|].
  specialize (Hprefix _ Hperms Hsorted).
  destruct (range_split first last ls) as (_ & _ & Hlenr); [lia|].
  rewrite take_ge in Hprefix by lia.
  exists l'. split; [done|]. rewrite Hsort. f_equal. symmetry.
  pose proof Hrun as Hrun'. unfold partial_sort in Hrun'.
  destruct (partial_sort_loop_spec comp first last last l fuel first l)
    as (l'' & Hrun'' & Hperm & Hframe & _); [lia|lia|lia|done|done|].
  assert (l'' = l') as -> by congruence.
  destruct (frame_perm first last l l') as (Htake & Hdrop & _); [lia|done..|].
  apply (range_eq first last); [lia| |congruence..].
  by rewrite Hperm, Hlens.
Qed.

(** X19. With [nth] at [first], [nth_element] brings a greatest value to
    the front: under a strict weak ordering, on a range that is not empty,
    the value at [first] afterwards is before no value of the range. *)
Theorem nth_element_first_is_greatest fuel comp first last l :
  StrictWeakOrder comp →
  first < last → last ≤ length l →
  2 * (last - first) < fuel →
  ∃ l' v,
    nth_element fuel comp first first last l = Ok l' ∧
    l' !! first = Some v ∧ v ∈ range first last l ∧
    ∀ x, x ∈ range first last l' → comp v x = false.
Proof.
  intros Hswo Hlt Hlast Hfuel.
  pose proof (swo_irrefl _ Hswo) as Hirr.
  (* a greatest value: the last one of the sorted range *)
  destruct (sort_range comp fuel first last l) as
    (ls & _ & Hlens & _ & _ & Hperm & Hsorted); [lia..|].
  specialize (Hsorted (swo_asymmetric _ Hswo)).
  apply Sorted_StronglySorted in Hsorted; [|by apply swo_not_after_trans].
  set (s := range first last ls) in *.
  assert (length s = last - first) as Hlen.
  { destruct (range_split first last ls) as (_ & _ & ?); [lia|done]. }
  destruct (lookup_lt_is_Some_2 s (last - first - 1) ltac:(lia)) as [w Hw].
  assert (∀ x, x ∈ s → comp w x = false) as Hgreatest.
  { intros x [p Hp]%list_elem_of_lookup.
    pose proof (lookup_lt_Some _ _ _ Hp).
    destruct (decide (p = last - first - 1)) as [->|].
    - assert (x = w) as -> by congruence. apply Hirr.
    - apply (StronglySorted_lookup _ _ Hsorted p (last - first - 1) x w);
        [lia|done..]. }
  assert (w ∈ range first last l) as Hin.
  { rewrite <-Hperm. by eapply list_elem_of_lookup_2. }
  apply list_elem_of_lookup in Hin as [c [Hc Hclt]%lookup_range_Some].
  assert (followers comp l first last (first + c) = 0) as Hzero.
  { rewrite (followers_filter comp l last (first + c) w Hc (Hirr w) Hlast
               (last - first)) by lia.
    apply length_filter_Forall_not, Forall_forall.
    intros x Hx. rewrite Hgreatest; [done|]. by rewrite Hperm. }
  unfold nth_element. rewrite distance_index by lia. simpl.
  destruct (nth_element_loop_spec comp first first last (first - first) l
              fuel first) as (l' & -> & Hcases); [lia..| |].
  { intros; lia. }
  rewrite Nat.sub_diag in Hcases.
  destruct Hcases as [(c' & Hc' & Hcount & _ & Hswap)|[Hnone _]].
  2:{ exfalso. apply (Hnone (first + c)); [lia|done]. }
  destruct (iter_swap_lookups _ _ _ _ Hswap) as (Hfirst & _ & Hother & Hlenl & Hperml).
  destruct (value_is_Ok c' l ltac:(lia)) as (v & Hv & _).
  assert (v ∈ range first last l) as Hvin.
  { apply list_elem_of_lookup. exists (c' - first).
    apply lookup_range_Some. split; [|lia]. rewrite <-Hv. f_equal. lia. }
  exists l', v. split; [done|]. split; [congruence|]. split; [done|].
  rewrite (followers_filter comp l last c' v Hv (Hirr v) Hlast (last - first))
    in Hcount by lia.
  destruct (frame_perm first last l l') as (_ & _ & Hrange); [lia|done| |].
  { intros k Hk. apply Hother; lia. }
  intros x Hx. rewrite Hrange in Hx.
  destruct (comp v x) eqn:Hvx; [|done]. exfalso.
  assert (x ∈ filter (λ x, comp v x = true) (range first last l)) as Hxf
    by (by apply list_elem_of_filter).
  apply length_zero_iff_nil in Hcount. rewrite Hcount in Hxf.
  by apply elem_of_nil in Hxf.
Qed.
End Properties.

Lemma less_tied_equal (x y : nat) : less x y = false → less y x = false → x = y.
Proof. unfold less. intros ?%Nat.ltb_ge ?%Nat.ltb_ge. lia. Qed.

(** ** The properties on small ranges *)

Lemma sort_any_comparator_witness :
  ∃ l', sort 5 (λ _ _ : nat, true) 1 4 [7; 2; 9; 4; 1] = Ok l' ∧ l' ≡ₚ [7; 2; 9; 4; 1].
Proof.
  destruct (sort_any_comparator 5 (λ _ _ : nat, true) 1 4 [7; 2; 9; 4; 1])
    as (l' & Hrun & _ & Hperm & _); [simpl; lia|lia|].
  exists l'. split; [exact Hrun|exact Hperm].
Defined.

Lemma stable_sort_any_comparator_witness :
  ∃ l',
    stable_sort 6 Nat.leb 0 5 [3; 1; 3; 2; 1] = Ok l' ∧
    Sorted (not_after (ramda Nat.leb)) (range 0 5 l').
Proof.
  destruct (stable_sort_any_comparator 6 Nat.leb 0 5 [3; 1; 3; 2; 1])
    as (l' & Hrun & _ & _ & _ & Hsorted & _); [simpl; lia|lia|].
  exists l'. split; [exact Hrun|exact Hsorted].
Defined.

Lemma is_sorted_iff_Sorted_witness :
  ∃ b,
    is_sorted 5 less 0 4 [1; 2; 2; 3] = Ok b ∧
    (b = true ↔ Sorted (not_after less) (range 0 4 [1; 2; 2; 3])).
Proof.
  destruct (is_sorted_iff_Sorted 5 less 0 4 [1; 2; 2; 3])
    as (b & Hrun & Hiff & _); [simpl; lia|lia|].
  exists b. split; [exact Hrun|exact Hiff].
Defined.

Lemma is_sorted_until_longest_prefix_witness :
  ∃ r,
    is_sorted_until 5 less 0 4 [1; 3; 2; 4] = Ok r ∧
    is_sorted 5 less 0 r [1; 3; 2; 4] = Ok true.
Proof.
  destruct (is_sorted_until_longest_prefix 5 less 0 4 [1; 3; 2; 4])
    as (r & Hrun & _ & _ & Hsorted & _); [simpl; lia|lia|].
  exists r. split; [exact Hrun|exact Hsorted].
Defined.

Lemma sort_then_is_sorted_witness :
  ∃ l1,
    sort 7 less 0 6 [5; 3; 8; 1; 9; 2] = Ok l1 ∧
    is_sorted 7 less 0 6 l1 = Ok true.
Proof.
  destruct (sort_then_is_sorted 7 less 0 6 [5; 3; 8; 1; 9; 2])
    as (l1 & _ & Hrun & Hsorted & _);
    [exact (swo_asymmetric less less_StrictWeakOrder)|simpl; lia|lia|].
  exists l1. split; [exact Hrun|exact Hsorted].
Defined.

Lemma sort_bounds_witness :
  sort 3 less 2 1 [5; 3] = Ok [5; 3] ∧
  sort 3 less 0 3 [5; 3] = Err OutOfRange.
Proof.
  destruct (sort_bounds 3 less 2 1 [5; 3]) as [Hempty _]; [lia|].
  destruct (sort_bounds 3 less 0 3 [5; 3]) as [_ Hfail]; [lia|].
  split; [apply Hempty; lia|]. apply Hfail; simpl; lia.
Defined.

Lemma sort_idempotent_witness :
  ∃ l',
    sort 7 less 0 6 [5; 3; 8; 1; 9; 2] = Ok l' ∧
    sort 7 less 0 6 l' = Ok l'.
Proof.
  destruct (sort_idempotent 7 less 0 6 [5; 3; 8; 1; 9; 2])
    as (l' & Hrun & _ & Hagain & _);
    [exact less_StrictWeakOrder|exact less_tied_equal|simpl; lia|lia|].
  exists l'. split; [exact Hrun|exact Hagain].
Defined.

Lemma partial_sort_sorted_identity_witness :
  partial_sort 5 less 0 2 4 [1; 2; 2; 3] = Ok [1; 2; 2; 3].
Proof.
  apply partial_sort_sorted_identity; [lia|simpl; lia|lia|].
  unfold range. simpl. repeat constructor.
Defined.

Lemma partial_sort_idempotent_witness :
  ∃ l',
    partial_sort 7 key_less 0 3 6 [(2, 0); (1, 1); (2, 2); (1, 3); (0, 4); (1, 5)]
    = Ok l' ∧
    partial_sort 7 key_less 0 3 6 l' = Ok l'.
Proof.
  apply partial_sort_idempotent;
    [exact key_less_StrictWeakOrder|lia|simpl; lia|lia].
Defined.

Lemma nth_element_permutes_witness :
  ∃ l',
    nth_element 13 less 0 2 6 [5; 3; 8; 1; 9; 2] = Ok l' ∧
    l' ≡ₚ [5; 3; 8; 1; 9; 2].
Proof.
  destruct (nth_element_permutes 13 less 0 2 6 [5; 3; 8; 1; 9; 2])
    as (l' & Hrun & _ & Hperm & _); [lia|simpl; lia|lia|].
  exists l'. split; [exact Hrun|exact Hperm].
Defined.

Lemma nth_element_from_the_end_witness :
  ∃ l' ls,
    nth_element 13 less 0 2 6 [5; 3; 8; 1; 9; 2] = Ok l' ∧
    sort 13 less 0 6 [5; 3; 8; 1; 9; 2] = Ok ls ∧
    l' !! 2 = ls !! 3.
Proof.
  destruct (nth_element_from_the_end 13 less 0 2 6 [5; 3; 8; 1; 9; 2])
    as (l' & ls & Hrun & Hsort & Hmirror & _);
    [exact less_StrictWeakOrder|exact less_tied_equal
    |exact (bool_decide_unpack (NoDup [5; 3; 8; 1; 9; 2]) I)
    |lia|simpl; lia|lia|].
  exists l', ls. split; [exact Hrun|]. split; [exact Hsort|exact Hmirror].
Defined.


Lemma partial_sort_copy_then_is_sorted_witness :
  let h := [[5; 3; 8; 1; 9; 2]; [0; 0; 0; 0; 0]] in
  ∃ h' result cout',
    partial_sort_copy 7 less (Iterator 0 0) (Iterator 0 6) (Iterator 1 1)
      (Iterator 1 4) h = Ok (h', result) ∧
    h' !! 1 = Some cout' ∧
    is_sorted 7 less 1 (index result) cout' = Ok true.
Proof.
  intros h.
  destruct (partial_sort_copy_then_is_sorted 7 less (Iterator 0 0)
              (Iterator 0 6) (Iterator 1 1) (Iterator 1 4) h
              [5; 3; 8; 1; 9; 2] [0; 0; 0; 0; 0])
    as (h' & result & cout' & Hrun & _ & _ & Hcout & Hsorted);
    [exact (swo_asymmetric less less_StrictWeakOrder)|reflexivity|reflexivity
    |simpl; lia|reflexivity|reflexivity|simpl; lia|simpl; lia|simpl; lia|].
  exists h', result, cout'. split; [exact Hrun|]. split; [exact Hcout|exact Hsorted].
Defined.

Lemma sort_is_local_witness :
  ∃ l' v,
    sort 4 key_less 1 4 [(9, 0); (1, 1); (1, 2); (0, 3); (9, 4)] = Ok l' ∧
    sort 4 key_less 0 3 [(1, 1); (1, 2); (0, 3)] = Ok v ∧
    range 1 4 l' = v.
Proof.
  destruct (sort_is_local 4 key_less 1 4 [(9, 0); (1, 1); (1, 2); (0, 3); (9, 4)])
    as (l' & v & Hrun & Hv & _ & Hrange); [simpl; lia|lia|].
  exists l', v. split; [exact Hrun|]. split; [exact Hv|exact Hrange].
Defined.

Lemma partial_sort_copy_writes_what_sort_leaves_witness :
  let h := [[(1, 0); (1, 1); (0, 2)]; [(7, 7); (7, 7)]] in
  ∃ h' result cin',
    partial_sort_copy 4 key_less (Iterator 0 0) (Iterator 0 3) (Iterator 1 0)
      (Iterator 1 2) h = Ok (h', result) ∧
    sort 4 key_less 0 3 [(1, 0); (1, 1); (0, 2)] = Ok cin' ∧
    ∀ t, t < 2 → get (Iterator 1 t) h' = value t cin'.
Proof.
  intros h.
  exact (partial_sort_copy_writes_what_sort_leaves 4 key_less (Iterator 0 0)
           (Iterator 0 3) (Iterator 1 0) (Iterator 1 2) h
           [(1, 0); (1, 1); (0, 2)] [(7, 7); (7, 7)] eq_refl eq_refl
           ltac:(simpl; lia) eq_refl eq_refl ltac:(simpl; lia)
           ltac:(simpl; lia) ltac:(simpl; lia)).
Defined.

Lemma partial_sort_permutes_witness :
  ∃ l',
    partial_sort 5 Nat.leb 1 3 4 [7; 2; 9; 4; 1] = Ok l' ∧
    l' ≡ₚ [7; 2; 9; 4; 1].
Proof.
  destruct (partial_sort_permutes 5 Nat.leb 1 3 4 [7; 2; 9; 4; 1])
    as (l' & Hrun & _ & Hperm & _); [lia|simpl; lia|lia|].
  exists l'. split; [exact Hrun|exact Hperm].
Defined.

Lemma is_sorted_until_past_the_end_witness :
  is_sorted 9 less 0 5 [1; 2; 3] = Err OutOfRange ∧
  is_sorted_until 9 less 0 5 [1; 3; 2] = Ok 2.
Proof.
  destruct (is_sorted_until_past_the_end 9 less 0 5 [1; 2; 3])
    as (r & Hr & _ & Hsorted); [simpl; lia..|].
  destruct (is_sorted_until_past_the_end 9 less 0 5 [1; 3; 2])
    as (r' & Hr' & Huntil & _); [simpl; lia..|].
  injection Hr as <-. injection Hr' as <-.
  split; [exact Hsorted|exact Huntil].
Defined.

Lemma partial_sort_full_is_sort_witness :
  ∃ l',
    partial_sort 7 less 0 6 6 [5; 3; 8; 1; 9; 2] = Ok l' ∧
    sort 7 less 0 6 [5; 3; 8; 1; 9; 2] = Ok l'.
Proof.
  apply partial_sort_full_is_sort;
    [exact less_StrictWeakOrder|exact less_tied_equal|simpl; lia|lia].
Defined.

Lemma nth_element_first_is_greatest_witness :
  ∃ l' v,
    nth_element 13 key_less 0 0 6
      [(2, 0); (1, 1); (2, 2); (1, 3); (0, 4); (1, 5)] = Ok l' ∧
    l' !! 0 = Some v ∧
    ∀ x, x ∈ range 0 6 l' → key_less v x = false.
Proof.
  destruct (nth_element_first_is_greatest 13 key_less 0 6
              [(2, 0); (1, 1); (2, 2); (1, 3); (0, 4); (1, 5)])
    as (l' & v & Hrun & Hv & _ & Hgreatest);
    [exact key_less_StrictWeakOrder|lia|simpl; lia|lia|].
  exists l', v. split; [exact Hrun|]. split; [exact Hv|exact Hgreatest].
Defined.
